(** * MusicPlayer: a shallow embedding of [src/components/MusicPlayer.tsx]

    The component is a React function component that drives one
    [HTMLAudioElement].  The embedding follows the source function by
    function:

    - JavaScript numbers are the type [number]: [NaN], the two infinities and
      the finite values, the latter kept as exact rationals ([Q]).  The
      component only compares, clamps, multiplies, divides and floors
      numbers; comparison, [Math.max], [Math.min], [%] and [Math.floor] are
      exact on doubles, and rounding of products and quotients is not
      modelled.  Negative zero is not distinguished from zero.
    - React state ([useState]) is a record; a handler is a function on that
      record; [render] re-runs the two [useEffect] bodies when their
      dependency lists changed.
    - The audio element is a record of the properties the component reads
      and writes, together with the list of calls made on it.  Its position
      setter refuses a value that is not finite, and that is modelled; its
      gain setter refuses one too, and that is not: what is stated about the
      volume is stated for a volume that is a number.
    - [Math.random] is an explicit list of draws.  *)

From Stdlib Require Import ZArith QArith Qround Lqa Lia Bool List String Ascii.
From Stdlib Require Import DecimalString.
Import ListNotations.

Local Open Scope Z_scope.

(** ** JavaScript numbers *)

Module JS.

Inductive number : Type :=
| NaN
| PosInf
| NegInf
| Fin (q : Q).

Definition zero : number := Fin 0.
Definition one : number := Fin 1.

(** [isFinite(n)] *)
Definition isFinite (n : number) : bool :=
  match n with Fin _ => true | _ => false end.

(** [Boolean(n)]: [0] and [NaN] are falsy. *)
Definition truthy (n : number) : bool :=
  match n with
  | NaN => false
  | Fin q => negb (Qeq_bool q 0)
  | _ => true
  end.

(** [a || b] on numbers. *)
Definition or_else (a b : number) : number := if truthy a then a else b.

(** [a || b] where [a] may be [undefined]. *)
Definition or_else_opt (a : option number) (b : number) : number :=
  match a with
  | Some x => or_else x b
  | None => b
  end.

Definition Qltb (a b : Q) : bool := negb (Qle_bool b a).

(** [a < b]; every comparison with [NaN] is false. *)
Definition lt (a b : number) : bool :=
  match a, b with
  | NaN, _ | _, NaN => false
  | _, NegInf => false
  | NegInf, _ => true
  | PosInf, _ => false
  | Fin _, PosInf => true
  | Fin x, Fin y => Qltb x y
  end.

(** [a <= b] *)
Definition le (a b : number) : bool :=
  match a, b with
  | NaN, _ | _, NaN => false
  | NegInf, _ => true
  | _, PosInf => true
  | _, NegInf => false
  | PosInf, _ => false
  | Fin x, Fin y => Qle_bool x y
  end.

(** [a === b] *)
Definition strict_eq (a b : number) : bool :=
  match a, b with
  | PosInf, PosInf | NegInf, NegInf => true
  | Fin x, Fin y => Qeq_bool x y
  | _, _ => false
  end.

(** [Object.is(a, b)], the comparison React uses for dependency lists. *)
Definition same_value (a b : number) : bool :=
  match a, b with
  | NaN, NaN => true
  | _, _ => strict_eq a b
  end.

Definition is_nan (a : number) : bool :=
  match a with NaN => true | _ => false end.

(** [Math.max(a, b)] and [Math.min(a, b)] *)
Definition Math_max (a b : number) : number :=
  if is_nan a || is_nan b then NaN else if lt a b then b else a.

Definition Math_min (a b : number) : number :=
  if is_nan a || is_nan b then NaN else if lt b a then b else a.

Definition Qsign_pos (q : Q) : bool := Qltb 0 q.

(** An infinity of the given sign ([true] is positive). *)
Definition inf (positive : bool) : number := if positive then PosInf else NegInf.

(** [a * b] *)
Definition mul (a b : number) : number :=
  match a, b with
  | NaN, _ | _, NaN => NaN
  | Fin x, Fin y => Fin (x * y)
  | PosInf, PosInf | NegInf, NegInf => PosInf
  | PosInf, NegInf | NegInf, PosInf => NegInf
  | PosInf, Fin y | Fin y, PosInf =>
      if Qeq_bool y 0 then NaN else inf (Qsign_pos y)
  | NegInf, Fin y | Fin y, NegInf =>
      if Qeq_bool y 0 then NaN else inf (negb (Qsign_pos y))
  end.

(** [a / b] *)
Definition div (a b : number) : number :=
  match a, b with
  | NaN, _ | _, NaN => NaN
  | Fin x, Fin y =>
      if Qeq_bool y 0
      then if Qeq_bool x 0 then NaN else inf (Qsign_pos x)
      else Fin (x / y)
  | Fin _, _ => zero
  | PosInf, Fin y => inf (Qle_bool 0 y)
  | NegInf, Fin y => inf (negb (Qle_bool 0 y))
  | _, _ => NaN
  end.

(** Rounding towards zero. *)
Definition Qtrunc (q : Q) : Z := if Qle_bool 0 q then Qfloor q else Qceiling q.

(** [a % b]: the remainder has the sign of the dividend. *)
Definition rem (a b : number) : number :=
  match a, b with
  | Fin x, Fin y =>
      if Qeq_bool y 0 then NaN else Fin (x - y * inject_Z (Qtrunc (x / y)))
  | Fin x, (PosInf | NegInf) => Fin x
  | _, _ => NaN
  end.

(** [Math.floor(a)] *)
Definition Math_floor (a : number) : number :=
  match a with
  | Fin q => Fin (inject_Z (Qfloor q))
  | _ => a
  end.

(** The integer a finite number holds, when it holds one. *)
Definition as_integer (q : Q) : option Z :=
  let z := Qfloor q in
  if Qeq_bool (inject_Z z) q then Some z else None.

Section ToString.

(** [Number.prototype.toString] prints the shortest digits that read back
    as the same double.  For an integer below [2^53] these are its decimal
    digits; for the other finite values that printer is taken as given. *)
Variable shortest_digits : Q -> string.

Definition decimal (z : Z) : string := NilZero.string_of_int (Z.to_int z).

Definition toString (a : number) : string :=
  match a with
  | NaN => "NaN"%string
  | PosInf => "Infinity"%string
  | NegInf => "-Infinity"%string
  | Fin q =>
      match as_integer q with
      | Some z => if Z.abs z <? 2 ^ 53 then decimal z else shortest_digits q
      | None => shortest_digits q
      end
  end.

End ToString.

(** The first [n] characters of [fill] repeated; [cur] is what is left of the
    current copy. *)
Fixpoint fill_to (n : nat) (fill cur : string) : string :=
  match n with
  | O => EmptyString
  | S k =>
      match cur with
      | String c rest => String c (fill_to k fill rest)
      | EmptyString =>
          match fill with
          | String c rest => String c (fill_to k fill rest)
          | EmptyString => EmptyString
          end
      end
  end.

(** [s.padStart(target, fill)] *)
Definition padStart (s : string) (target : nat) (fill : string) : string :=
  (fill_to (target - String.length s) fill fill ++ s)%string.

End JS.

Import JS.

(** ** The helpers of the module *)

(** [clamp(n, min, max)] *)
Definition clamp (n min max : number) : number :=
  Math_max min (Math_min max n).

Section FormatTime.

Variable shortest_digits : Q -> string.

(** [formatTime(sec)] *)
Definition formatTime (sec : number) : string :=
  if negb (isFinite sec) || lt sec zero then "0:00"%string
  else
    let m := Math_floor (div sec (Fin 60)) in
    let s := Math_floor (rem sec (Fin 60)) in
    (toString shortest_digits m ++ ":"
       ++ padStart (toString shortest_digits s) 2 "0")%string.

End FormatTime.

(** ** Data model *)

Record Track : Type := {
  id : string;
  title : string;
  artist : string;
  coverUrl : option string;
  audioUrl : string;
  durationHint : option number
}.

Inductive PlayerStatus : Type := paused | loading | playing.

(** The playlist of the component. *)
Definition playlist : list Track :=
  [ {| id := "t1"; title := "Awesome Song Title"; artist := "Amazing Artist";
       coverUrl := None;
       audioUrl := "https://cdn.pixabay.com/download/audio/2022/03/15/audio_2b1fe7a2ab.mp3?filename=future-bass-logo-19442.mp3";
       durationHint := None |};
    {| id := "t2"; title := "Second Track"; artist := "Another Artist";
       coverUrl := None;
       audioUrl := "https://cdn.pixabay.com/download/audio/2022/10/03/audio_1d2c1b0f2a.mp3?filename=ambient-piano-logo-12047.mp3";
       durationHint := None |} ]%string.

(** ** The audio element

    The element is the browser's.  The record keeps the properties the
    component reads ([paused], [duration], [currentTime]) or writes ([src],
    [currentTime], [volume]), the calls the component made, oldest first,
    and the promises of [play()] that are not settled yet.

    [currentTime] and [volume] are of the IDL type [double]: assigning a
    value that is not finite throws a [TypeError].  For the position this
    is [audio_set_currentTime].  For the gain the error would be thrown
    inside an effect and unmount the component; [audio_set_volume] does not
    model it and records the value, so that the statements about the volume
    below are made for a volume that is a number, as a range input gives
    it. *)

Inductive Call : Type :=
| SetSrc (url : string)
| Load
| Play
| Pause
| SetCurrentTime (t : number)
| SetVolume (v : number).

(** Who is waiting on a promise of [play()]: [togglePlay] awaits it inside
    [try]/[catch]; [onEnded] attaches [catch(() => {})]. *)
Inductive PlayCaller : Type := ByTogglePlay | ByEnded.

Record Audio : Type := {
  el_src : string;
  el_paused : bool;
  el_currentTime : number;
  el_duration : number;
  el_volume : number;
  el_calls : list Call;
  el_pending : list PlayCaller
}.

(** [<audio preload="metadata" />] as created. *)
Definition new_audio : Audio :=
  {| el_src := EmptyString; el_paused := true; el_currentTime := zero;
     el_duration := NaN; el_volume := one; el_calls := []; el_pending := [] |}.

Definition audio_set_src (url : string) (a : Audio) : Audio :=
  {| el_src := url; el_paused := el_paused a;
     el_currentTime := el_currentTime a; el_duration := el_duration a;
     el_volume := el_volume a; el_calls := el_calls a ++ [SetSrc url];
     el_pending := el_pending a |}.

(** [a.load()] restarts resource selection: the element is paused again and
    its position and duration are forgotten. *)
Definition audio_load (a : Audio) : Audio :=
  {| el_src := el_src a; el_paused := true;
     el_currentTime := zero; el_duration := NaN;
     el_volume := el_volume a; el_calls := el_calls a ++ [Load];
     el_pending := el_pending a |}.

(** [a.play()] clears [paused] and returns a pending promise. *)
Definition audio_play (who : PlayCaller) (a : Audio) : Audio :=
  {| el_src := el_src a; el_paused := false;
     el_currentTime := el_currentTime a; el_duration := el_duration a;
     el_volume := el_volume a; el_calls := el_calls a ++ [Play];
     el_pending := el_pending a ++ [who] |}.

Definition audio_pause (a : Audio) : Audio :=
  {| el_src := el_src a; el_paused := true;
     el_currentTime := el_currentTime a; el_duration := el_duration a;
     el_volume := el_volume a; el_calls := el_calls a ++ [Pause];
     el_pending := el_pending a |}.

(** The element once it has taken the position [t]. *)
Definition audio_seeked (t : number) (a : Audio) : Audio :=
  {| el_src := el_src a; el_paused := el_paused a;
     el_currentTime := t; el_duration := el_duration a;
     el_volume := el_volume a; el_calls := el_calls a ++ [SetCurrentTime t];
     el_pending := el_pending a |}.

(** [a.currentTime = t]: [None] is the [TypeError] thrown for a [t] that is
    not finite; the element is then left as it was. *)
Definition audio_set_currentTime (t : number) (a : Audio) : option Audio :=
  if isFinite t then Some (audio_seeked t a) else None.

Definition audio_set_volume (v : number) (a : Audio) : Audio :=
  {| el_src := el_src a; el_paused := el_paused a;
     el_currentTime := el_currentTime a; el_duration := el_duration a;
     el_volume := v; el_calls := el_calls a ++ [SetVolume v];
     el_pending := el_pending a |}.

(** ** Results of running component code *)

Inductive outcome (A : Type) : Type :=
| Ok (a : A)
| Throws             (* a property of [undefined] was read: [TypeError] *)
| Spins.             (* a loop is still running when the draws run out *)

Arguments Ok {A} a.
Arguments Throws {A}.
Arguments Spins {A}.

Definition bind {A B : Type} (m : outcome A) (k : A -> outcome B) : outcome B :=
  match m with
  | Ok a => k a
  | Throws => Throws
  | Spins => Spins
  end.

Notation "'do' x <- m ; k" := (bind m (fun x => k))
  (at level 10, x name, m at level 100, k at level 200).

(** ** Component state *)

(** The variables of one render that the functions declared in it close
    over. *)
Record Scope : Type := {
  sc_index : Z;
  sc_track : Track;
  sc_isShuffle : bool;
  sc_isRepeat : bool
}.

Record State : Type := {
  index : Z;
  status : PlayerStatus;
  isShuffle : bool;
  isRepeat : bool;
  current : number;
  duration : number;
  volume : number;
  (* [audioRef.current] *)
  audioRef : option Audio;
  (* the scope of the listeners now registered on the element *)
  listeners : option Scope;
  (* the dependency lists of the last render *)
  loadDeps : option (Z * string * bool);
  volumeDeps : option number
}.

Definition setIndex (v : Z) (s : State) : State :=
  {| index := v; status := status s; isShuffle := isShuffle s;
     isRepeat := isRepeat s; current := current s; duration := duration s;
     volume := volume s; audioRef := audioRef s; listeners := listeners s;
     loadDeps := loadDeps s; volumeDeps := volumeDeps s |}.

Definition setStatus (v : PlayerStatus) (s : State) : State :=
  {| index := index s; status := v; isShuffle := isShuffle s;
     isRepeat := isRepeat s; current := current s; duration := duration s;
     volume := volume s; audioRef := audioRef s; listeners := listeners s;
     loadDeps := loadDeps s; volumeDeps := volumeDeps s |}.

Definition setIsShuffle (v : bool) (s : State) : State :=
  {| index := index s; status := status s; isShuffle := v;
     isRepeat := isRepeat s; current := current s; duration := duration s;
     volume := volume s; audioRef := audioRef s; listeners := listeners s;
     loadDeps := loadDeps s; volumeDeps := volumeDeps s |}.

Definition setIsRepeat (v : bool) (s : State) : State :=
  {| index := index s; status := status s; isShuffle := isShuffle s;
     isRepeat := v; current := current s; duration := duration s;
     volume := volume s; audioRef := audioRef s; listeners := listeners s;
     loadDeps := loadDeps s; volumeDeps := volumeDeps s |}.

Definition setCurrent (v : number) (s : State) : State :=
  {| index := index s; status := status s; isShuffle := isShuffle s;
     isRepeat := isRepeat s; current := v; duration := duration s;
     volume := volume s; audioRef := audioRef s; listeners := listeners s;
     loadDeps := loadDeps s; volumeDeps := volumeDeps s |}.

Definition setDuration (v : number) (s : State) : State :=
  {| index := index s; status := status s; isShuffle := isShuffle s;
     isRepeat := isRepeat s; current := current s; duration := v;
     volume := volume s; audioRef := audioRef s; listeners := listeners s;
     loadDeps := loadDeps s; volumeDeps := volumeDeps s |}.

Definition setVolume (v : number) (s : State) : State :=
  {| index := index s; status := status s; isShuffle := isShuffle s;
     isRepeat := isRepeat s; current := current s; duration := duration s;
     volume := v; audioRef := audioRef s; listeners := listeners s;
     loadDeps := loadDeps s; volumeDeps := volumeDeps s |}.

(** A write through [audioRef.current]. *)
Definition with_audio (a : Audio) (s : State) : State :=
  {| index := index s; status := status s; isShuffle := isShuffle s;
     isRepeat := isRepeat s; current := current s; duration := duration s;
     volume := volume s; audioRef := Some a; listeners := listeners s;
     loadDeps := loadDeps s; volumeDeps := volumeDeps s |}.

Definition with_listeners (l : option Scope) (s : State) : State :=
  {| index := index s; status := status s; isShuffle := isShuffle s;
     isRepeat := isRepeat s; current := current s; duration := duration s;
     volume := volume s; audioRef := audioRef s; listeners := l;
     loadDeps := loadDeps s; volumeDeps := volumeDeps s |}.

Definition with_loadDeps (d : Z * string * bool) (s : State) : State :=
  {| index := index s; status := status s; isShuffle := isShuffle s;
     isRepeat := isRepeat s; current := current s; duration := duration s;
     volume := volume s; audioRef := audioRef s; listeners := listeners s;
     loadDeps := Some d; volumeDeps := volumeDeps s |}.

Definition with_volumeDeps (d : number) (s : State) : State :=
  {| index := index s; status := status s; isShuffle := isShuffle s;
     isRepeat := isRepeat s; current := current s; duration := duration s;
     volume := volume s; audioRef := audioRef s; listeners := listeners s;
     loadDeps := loadDeps s; volumeDeps := Some d |}.

(** The values of [useState] at the first render; the element is attached
    to [audioRef] when the first render is committed, before any effect. *)
Definition initial : State :=
  {| index := 0; status := paused; isShuffle := false; isRepeat := false;
     current := zero; duration := zero; volume := Fin (8 # 10);
     audioRef := Some new_audio; listeners := None;
     loadDeps := None; volumeDeps := None |}.

(** ** The component *)

(** What the browser hands to the component. *)

Inductive Command : Type :=
| TogglePlay
| Next (draws : list Q)
| Prev (draws : list Q)
| ToggleShuffle
| ToggleRepeat
| SeekTo (p : number)
| SetVolumeTo (v : number).

(** The media events the component listens to.  [LoadedMetadata d] is
    dispatched with [a.duration] equal to [d], [TimeUpdate t] with
    [a.currentTime] equal to [t]. *)
Inductive MediaEvent : Type :=
| LoadedMetadata (d : number)
| TimeUpdate (t : number)
| Ended (draws : list Q)
| Waiting
| Playing
| Paused.

(** [Media g e]: the event [e], produced by the resource of the [g]-th
    load.  The number [g] is bookkeeping of the model only: a DOM event does
    not carry it and no handler can read it. *)
Inductive Input : Type :=
| User (c : Command)
| Media (g : nat) (e : MediaEvent)
| PlaySettled (fulfilled : bool).

Definition is_load (c : Call) : bool :=
  match c with Load => true | _ => false end.

(** How many loads the element has been asked for. *)
Definition loads (a : Audio) : nat :=
  List.length (filter is_load (el_calls a)).

Definition generation (s : State) : nat :=
  match audioRef s with
  | Some a => loads a
  | None => O
  end.

(** What the browser changes on the element before it dispatches an
    event. *)
Definition browser_update (e : MediaEvent) (a : Audio) : Audio :=
  match e with
  | LoadedMetadata d =>
      {| el_src := el_src a; el_paused := el_paused a;
         el_currentTime := el_currentTime a; el_duration := d;
         el_volume := el_volume a; el_calls := el_calls a;
         el_pending := el_pending a |}
  | TimeUpdate t =>
      {| el_src := el_src a; el_paused := el_paused a;
         el_currentTime := t; el_duration := el_duration a;
         el_volume := el_volume a; el_calls := el_calls a;
         el_pending := el_pending a |}
  | Playing =>
      {| el_src := el_src a; el_paused := false;
         el_currentTime := el_currentTime a; el_duration := el_duration a;
         el_volume := el_volume a; el_calls := el_calls a;
         el_pending := el_pending a |}
  | Paused | Ended _ =>
      {| el_src := el_src a; el_paused := true;
         el_currentTime := el_currentTime a; el_duration := el_duration a;
         el_volume := el_volume a; el_calls := el_calls a;
         el_pending := el_pending a |}
  | Waiting => a
  end.

Definition drop_pending (a : Audio) : Audio :=
  {| el_src := el_src a; el_paused := el_paused a;
     el_currentTime := el_currentTime a; el_duration := el_duration a;
     el_volume := el_volume a; el_calls := el_calls a;
     el_pending := tl (el_pending a) |}.

Section Player.

(** The component builds its playlist itself ([playlist] above); the
    functions below only use it through [tracks.length] and [tracks[index]],
    so they are written over any list. *)
Variable tracks : list Track.

Definition length : Z := Z.of_nat (List.length tracks).

(** [tracks[i]], [None] for [undefined]. *)
Definition track_at (i : Z) : option Track :=
  if i <? 0 then None else nth_error tracks (Z.to_nat i).

(** The scope of the render of [s]; there is none when [tracks[index]] is
    [undefined], because the render then throws (see [render]). *)
Definition scope_of (s : State) : option Scope :=
  match track_at (index s) with
  | Some t =>
      Some {| sc_index := index s; sc_track := t;
              sc_isShuffle := isShuffle s; sc_isRepeat := isRepeat s |}
  | None => None
  end.

(** [Math.floor(Math.random() * tracks.length)] when [Math.random()]
    returns [r]. *)
Definition draw_index (r : Q) : Z := Qfloor (r * inject_Z length).

(** The [while] loop of [pickRandomNext]: each round takes one result of
    [Math.random()]. *)
Fixpoint resample (index : Z) (draws : list Q) : outcome Z :=
  match draws with
  | [] => Spins
  | r :: rest =>
      let nextIdx := draw_index r in
      if nextIdx =? index then resample index rest else Ok nextIdx
  end.

(** [pickRandomNext()]; [index] is the variable of the enclosing render. *)
Definition pickRandomNext (sc : Scope) (draws : list Q) : outcome Z :=
  if length <=? 1 then Ok (sc_index sc) else resample (sc_index sc) draws.

(** [prev()] and [next()]: the updater handed to [setIndex] receives the
    state's index [i]; [isShuffle] and [pickRandomNext] are those of the
    scope.  [%] is the remainder of JavaScript ([Z.rem]). *)
Definition prev (sc : Scope) (draws : list Q) (s : State) : outcome State :=
  do i' <- (if sc_isShuffle sc then pickRandomNext sc draws
            else Ok (Z.rem (index s - 1 + length) length));
  Ok (setIndex i' s).

Definition next (sc : Scope) (draws : list Q) (s : State) : outcome State :=
  do i' <- (if sc_isShuffle sc then pickRandomNext sc draws
            else Ok (Z.rem (index s + 1) length));
  Ok (setIndex i' s).

(** [togglePlay()] up to its [await]. *)
Definition togglePlay (s : State) : State :=
  match audioRef s with
  | None => s
  | Some a =>
      if el_paused a
      then with_audio (audio_play ByTogglePlay a) (setStatus loading s)
      else with_audio (audio_pause a) s
  end.

(** What runs when a promise of [play()] settles: the [catch] block of
    [togglePlay] on rejection, nothing otherwise. *)
Definition settle (fulfilled : bool) (s : State) : State :=
  match audioRef s with
  | None => s
  | Some a =>
      match el_pending a with
      | [] => s
      | who :: _ =>
          let s' := with_audio (drop_pending a) s in
          match who, fulfilled with
          | ByTogglePlay, false => setStatus paused s'
          | _, _ => s'
          end
      end
  end.

(** [seekTo(p)].  When the element refuses the position, the error leaves
    the handler before [setCurrent(t)]: nothing has changed. *)
Definition seekTo (p : number) (s : State) : State :=
  match audioRef s with
  | None => s
  | Some a =>
      if negb (truthy (duration s)) then s
      else
        let t := mul (clamp p zero one) (duration s) in
        match audio_set_currentTime t a with
        | Some a' => setCurrent t (with_audio a' s)
        | None => s
        end
  end.

(** *** The listeners of the load effect *)

Definition onLoaded (sc : Scope) (a : Audio) (s : State) : State :=
  setStatus paused
    (setDuration
       (or_else (el_duration a) (or_else_opt (durationHint (sc_track sc)) zero))
       s).

Definition onTime (a : Audio) (s : State) : State :=
  setCurrent (or_else (el_currentTime a) zero) s.

Definition onEnded (sc : Scope) (draws : list Q) (a : Audio) (s : State)
  : outcome State :=
  if sc_isRepeat sc
  then
    match audio_set_currentTime zero a with
    | Some a' => Ok (setStatus playing (with_audio (audio_play ByEnded a') s))
    | None => Ok s
    end
  else next sc draws s.

Definition onWaiting (a : Audio) (s : State) : State :=
  if negb (el_paused a) then setStatus loading s else s.

Definition onPlaying (s : State) : State := setStatus playing s.

Definition onPause (s : State) : State := setStatus paused s.

(** The browser dispatches [e]: the listener registered for it, if any,
    runs. *)
Definition dispatch (e : MediaEvent) (s : State) : outcome State :=
  match audioRef s with
  | None => Ok s
  | Some a0 =>
      let a := browser_update e a0 in
      let s := with_audio a s in
      match listeners s with
      | None => Ok s
      | Some sc =>
          match e with
          | LoadedMetadata _ => Ok (onLoaded sc a s)
          | TimeUpdate _ => Ok (onTime a s)
          | Ended draws => onEnded sc draws a s
          | Waiting => Ok (onWaiting a s)
          | Playing => Ok (onPlaying s)
          | Paused => Ok (onPause s)
          end
      end
  end.

(** *** The two effects *)

(** The body of the load effect, run in the scope [sc].  The cleanup of the
    previous run has removed the old listeners; the new ones replace
    them. *)
Definition loadEffect (sc : Scope) (s : State) : State :=
  match audioRef s with
  | None => s
  | Some a =>
      let a := audio_load (audio_set_src (audioUrl (sc_track sc)) a) in
      with_listeners (Some sc)
        (with_audio a (setDuration zero (setCurrent zero (setStatus loading s))))
  end.

Definition volumeEffect (s : State) : State :=
  match audioRef s with
  | None => s
  | Some a => with_audio (audio_set_volume (clamp (volume s) zero one) a) s
  end.

Definition same_loadDeps (old : option (Z * string * bool))
  (new : Z * string * bool) : bool :=
  match old, new with
  | Some (i, u, r), (i', u', r') =>
      (i =? i') && String.eqb u u' && Bool.eqb r r'
  | None, _ => false
  end.

Definition same_volumeDeps (old : option number) (new : number) : bool :=
  match old with
  | Some v => same_value v new
  | None => false
  end.

(** One render and the effects it schedules.  [track.audioUrl] in the
    dependency list is evaluated while rendering, so the render throws when
    [tracks[index]] is [undefined].  The state the load effect sets causes
    one more render, whose dependency lists are unchanged. *)
Definition render (s : State) : outcome State :=
  match scope_of s with
  | None => Throws
  | Some sc =>
      let deps := (index s, audioUrl (sc_track sc), isRepeat s) in
      let s1 :=
        if same_loadDeps (loadDeps s) deps then s
        else loadEffect sc (with_loadDeps deps s) in
      let s2 :=
        if same_volumeDeps (volumeDeps s1) (volume s1) then s1
        else volumeEffect (with_volumeDeps (volume s1) s1) in
      Ok s2
  end.

(** The first render. *)
Definition mount : outcome State := render initial.

(** A click or a change on a control; the handler is the one of the render
    of [s].  A state whose render throws shows no control. *)
Definition command (c : Command) (s : State) : outcome State :=
  match scope_of s with
  | None => Throws
  | Some sc =>
      match c with
      | TogglePlay => Ok (togglePlay s)
      | Next draws => next sc draws s
      | Prev draws => prev sc draws s
      | ToggleShuffle => Ok (setIsShuffle (negb (isShuffle s)) s)
      | ToggleRepeat => Ok (setIsRepeat (negb (isRepeat s)) s)
      | SeekTo p => Ok (seekTo p s)
      | SetVolumeTo v => Ok (setVolume v s)
      end
  end.

(** The handler that an input runs. *)
Definition handle (s : State) (i : Input) : outcome State :=
  match i with
  | User c => command c s
  | Media _ e => dispatch e s
  | PlaySettled ok => Ok (settle ok s)
  end.

(** One turn of the event loop: a handler runs, then React renders. *)
Definition step (s : State) (i : Input) : outcome State :=
  do s' <- handle s i;
  render s'.

Fixpoint run (s : State) (inputs : list Input) : outcome State :=
  match inputs with
  | [] => Ok s
  | i :: rest => do s' <- step s i; run s' rest
  end.

End Player.

(** ** Vocabulary of the statements *)

(** The decimal digit [d] as a character, and a number below 100 written
    with two digits. *)
Definition digit (d : Z) : ascii := ascii_of_nat (48 + Z.to_nat d).

Definition two_digits (s : Z) : string :=
  String (digit (s / 10)) (String (digit (s mod 10)) EmptyString).

(** [Math.random()] returns a number of [[0, 1)]. *)
Definition unit_draws (draws : list Q) : Prop :=
  Forall (fun r => (0 <= r < 1)%Q) draws.

Definition input_ok (i : Input) : Prop :=
  match i with
  | User (Next draws) | User (Prev draws) | Media _ (Ended draws) =>
      unit_draws draws
  | _ => True
  end.

Section Vocabulary.

Variable tracks : list Track.

(** [s] is what a render leaves behind: [tracks[index]] exists and both
    dependency lists are those of [s], so that rendering again runs no
    effect. *)
Definition rendered (s : State) : bool :=
  match scope_of tracks s with
  | None => false
  | Some sc =>
      same_loadDeps (loadDeps s) (index s, audioUrl (sc_track sc), isRepeat s)
      && same_volumeDeps (volumeDeps s) (volume s)
  end.

(** What holds between the component and the element from the first
    render on: the element exists and its gain is the clamped volume the
    volume effect last saw; listeners are registered, and they are those of
    the render whose dependency list was recorded last. *)
Definition coherent (s : State) : Prop :=
  (exists a w, audioRef s = Some a /\ volumeDeps s = Some w
               /\ same_value (el_volume a) (clamp w zero one) = true)
  /\ (exists sc, listeners s = Some sc
                 /\ loadDeps s
                    = Some (sc_index sc, audioUrl (sc_track sc),
                            sc_isRepeat sc)
                 /\ track_at tracks (sc_index sc) = Some (sc_track sc)).

Definition mounted (s : State) : Prop :=
  rendered s = true /\ coherent s.

(** The event tagged [g] comes from a load that a later load replaced. *)
Definition stale (g : nat) (s : State) : bool := (S g <? generation s)%nat.

(** What the consumer of the component sees. *)
Definition snapshot (s : State)
  : PlayerStatus * number * number * number * bool * bool * option Track :=
  (status s, current s, duration s, volume s, isShuffle s, isRepeat s,
   track_at tracks (index s)).

(** The reading of stale-event suppression: once a later load has been
    issued, an event of an earlier load changes nothing that is observed. *)
Definition discards_stale_events : Prop :=
  forall inputs s g e s',
    (do s0 <- mount tracks; run tracks s0 inputs) = Ok s ->
    stale g s = true ->
    step tracks s (Media g e) = Ok s' ->
    snapshot s' = snapshot s.

(** The reading of "through loading to playing" for a repeated track: the
    end of the track puts the status to [loading]. *)
Definition repeat_enters_loading : Prop :=
  forall inputs s g draws,
    (do s0 <- mount tracks; run tracks s0 inputs) = Ok s ->
    isRepeat s = true ->
    exists s', step tracks s (Media g (Ended draws)) = Ok s'
               /\ status s' = loading.

End Vocabulary.

(** ** Sample runs on the playlist of the component *)

Definition after (inputs : list Input) : outcome State :=
  do s0 <- mount playlist; run playlist s0 inputs.

(** The element and the scope of a state that has them. *)
Definition the_audio (s : State) : Audio :=
  match audioRef s with
  | Some a => a
  | None => new_audio
  end.

Definition the_scope (s : State) : Scope :=
  match listeners s with
  | Some sc => sc
  | None =>
      {| sc_index := 0;
         sc_track := {| id := EmptyString; title := EmptyString;
                        artist := EmptyString; coverUrl := None;
                        audioUrl := EmptyString; durationHint := None |};
         sc_isShuffle := false; sc_isRepeat := false |}
  end.

Definition state_after (inputs : list Input) : State :=
  match after inputs with
  | Ok s => s
  | _ => initial
  end.

(** Right after the first render. *)
Definition s_first : State := Eval vm_compute in state_after [].

(** After [next()]: the second track is loading. *)
Definition s_second : State := Eval vm_compute in state_after [User (Next [])].

(** The first track with its metadata: 200 seconds. *)
Definition s_ready : State :=
  Eval vm_compute in state_after [Media 0 (LoadedMetadata (Fin 200))].

Definition s_shuffle : State :=
  Eval vm_compute in state_after [User ToggleShuffle].

Definition s_repeat : State :=
  Eval vm_compute in state_after [User ToggleRepeat].

(** A playlist of three tracks, to tell shuffle from sequence. *)
Definition three_tracks : list Track :=
  [ {| id := "a"; title := "A"; artist := "X"; coverUrl := None;
       audioUrl := "a.mp3"; durationHint := None |};
    {| id := "b"; title := "B"; artist := "X"; coverUrl := None;
       audioUrl := "b.mp3"; durationHint := Some (Fin 30) |};
    {| id := "c"; title := "C"; artist := "X"; coverUrl := None;
       audioUrl := "c.mp3"; durationHint := None |} ]%string.

(** ** The readings of two more claims *)


(** C5, middle part: once the duration is known, [seekTo(p)] sets the
    position to [clamp(p, 0, 1) * duration], for every [p]. *)
Definition seek_always_sets_position : Prop :=
  forall (s : State) (a : Audio) (p : number),
    audioRef s = Some a ->
    truthy (duration s) = true ->
    current (seekTo p s) = mul (clamp p zero one) (duration s).

(** ** The rest of the render *)

(** [a - b] *)
Definition minus (a b : number) : number :=
  match a, b with
  | NaN, _ | _, NaN => NaN
  | Fin x, Fin y => Fin (x - y)
  | PosInf, PosInf | NegInf, NegInf => NaN
  | PosInf, _ | _, NegInf => PosInf
  | NegInf, _ | _, PosInf => NegInf
  end.

(** [progress], the [useMemo] over [current] and [duration]. *)
Definition progress (s : State) : number :=
  if negb (truthy (duration s)) then zero
  else clamp (div (current s) (duration s)) zero one.

(** The [onClick] of the seek bar; [left] and [width] are those of the
    bounding rectangle of the button, [clientX] is where the click fell. *)
Definition seekClick (clientX left width : number) (s : State) : State :=
  let p := div (minus clientX left) width in
  seekTo p s.

Section Labels.

Variable shortest_digits : Q -> string.

(** The two time labels under the seek bar. *)
Definition currentLabel (s : State) : string :=
  formatTime shortest_digits (current s).

Definition durationLabel (s : State) : string :=
  formatTime shortest_digits (or_else (duration s) (Fin (3 * 60 + 45))).

End Labels.

(** The volume slider hands over a number. *)
Definition volume_is_number (i : Input) : Prop :=
  match i with
  | User (SetVolumeTo v) => v <> NaN
  | _ => True
  end.

(** A duration is either known or exactly 0. *)
Definition known_or_zero (d : number) : Prop :=
  truthy d = true \/ d = zero.

(** The listeners in place and the source of the element are those of the
    track at the index. *)
Definition wired (tracks : list Track) (s : State) : Prop :=
  exists a sc t,
    audioRef s = Some a /\ listeners s = Some sc
    /\ track_at tracks (index s) = Some t
    /\ sc_index sc = index s /\ sc_track sc = t
    /\ sc_isRepeat sc = isRepeat s
    /\ el_src a = audioUrl t.

(** ** More sample runs *)

(** The second track, reached from the first one with its metadata. *)
Definition s_ready_next : State :=
  Eval vm_compute in
    state_after [Media 0 (LoadedMetadata (Fin 200)); User (Next [])].

(** The volume slider pushed past its end. *)
Definition s_loud : State :=
  Eval vm_compute in state_after [User (SetVolumeTo (Fin (17 # 10)))].

(** The element reports no duration and the track has no hint. *)
Definition s_unknown : State :=
  Eval vm_compute in state_after [Media 0 (LoadedMetadata NaN)].

(** A playlist of one track, and the component right after its first
    render on it. *)
Definition one_track : list Track :=
  [ {| id := "only"; title := "Only"; artist := "X"; coverUrl := None;
       audioUrl := "only.mp3"; durationHint := None |} ]%string.

Definition s_one : State :=
  Eval vm_compute in
    match mount one_track with
    | Ok s => s
    | _ => initial
    end.

(** * Properties *)

(** ** Numbers *)

Lemma Qltb_lt (x y : Q) : Qltb x y = true <-> (x < y)%Q.
Proof.
  unfold Qltb. rewrite negb_true_iff.
  split; intro H.
  - apply Qnot_le_lt. intro Hle. apply Qle_bool_iff in Hle. congruence.
  - destruct (Qle_bool y x) eqn:E; [|reflexivity].
    apply Qle_bool_iff in E. exfalso. apply (Qlt_not_le _ _ H E).
Qed.

Lemma Qltb_ge (x y : Q) : Qltb x y = false <-> (y <= x)%Q.
Proof.
  unfold Qltb. rewrite negb_false_iff. apply Qle_bool_iff.
Qed.

Lemma same_value_refl (a : number) : same_value a a = true.
Proof.
  destruct a; simpl; try reflexivity. apply Qeq_bool_iff. reflexivity.
Qed.

(** [clamp] of anything but [NaN] between [0] and [1] is a finite number of
    that interval. *)
Lemma clamp_unit (n : number) :
  n <> NaN -> exists x : Q, clamp n zero one = Fin x /\ (0 <= x <= 1)%Q.
Proof.
  intro Hn. destruct n as [| | |q]; [congruence| | |].
  - exists 1%Q. split; [reflexivity|lra].
  - exists 0%Q. split; [reflexivity|lra].
  - unfold clamp, Math_min, Math_max, zero, one. simpl.
    destruct (Qltb q 1) eqn:E1; simpl.
    + destruct (Qltb 0 q) eqn:E0.
      * exists q. apply Qltb_lt in E1, E0. split; [reflexivity|lra].
      * exists 0%Q. split; [reflexivity|lra].
    + exists 1%Q. split; [reflexivity|lra].
Qed.

Lemma clamp_nan : clamp NaN zero one = NaN.
Proof. reflexivity. Qed.

Lemma le_Fin (x y : Q) : le (Fin x) (Fin y) = true <-> (x <= y)%Q.
Proof. simpl. apply Qle_bool_iff. Qed.

(** Numbers that React takes for the same dependency clamp to the same
    gain. *)
Lemma clamp_same_value (v w : number) :
  same_value v w = true ->
  same_value (clamp v zero one) (clamp w zero one) = true.
Proof.
  destruct v as [| | |x], w as [| | |y]; simpl; try discriminate;
    try reflexivity.
  intro H. apply Qeq_bool_iff in H.
  unfold clamp, Math_min, Math_max, zero, one. simpl.
  destruct (Qltb x 1) eqn:Ex, (Qltb y 1) eqn:Ey; simpl;
    try (apply Qltb_lt in Ex); try (apply Qltb_lt in Ey);
    try (apply Qltb_ge in Ex); try (apply Qltb_ge in Ey);
    try (exfalso; lra); [|reflexivity].
  destruct (Qltb 0 x) eqn:Fx, (Qltb 0 y) eqn:Fy; simpl;
    try (apply Qltb_lt in Fx); try (apply Qltb_lt in Fy);
    try (apply Qltb_ge in Fx); try (apply Qltb_ge in Fy);
    try (exfalso; lra); [|reflexivity].
  apply Qeq_bool_iff. exact H.
Qed.

(** ** The position setter *)

Lemma audio_set_currentTime_finite (t : number) (a : Audio) :
  isFinite t = true -> audio_set_currentTime t a = Some (audio_seeked t a).
Proof. unfold audio_set_currentTime. intros ->. reflexivity. Qed.

Lemma audio_set_currentTime_refused (t : number) (a : Audio) :
  isFinite t = false -> audio_set_currentTime t a = None.
Proof. unfold audio_set_currentTime. intros ->. reflexivity. Qed.

Lemma audio_set_currentTime_some (t : number) (a a' : Audio) :
  audio_set_currentTime t a = Some a' ->
  isFinite t = true /\ a' = audio_seeked t a.
Proof.
  unfold audio_set_currentTime. destruct (isFinite t); [|discriminate].
  intro H. injection H as <-. split; reflexivity.
Qed.

(** ** [formatTime] *)

Lemma Qfloor_unique (x : Q) (z : Z) :
  (inject_Z z <= x)%Q -> (x < inject_Z (z + 1))%Q -> Qfloor x = z.
Proof.
  intros Hlo Hhi.
  pose proof (Qfloor_le x) as Fl. pose proof (Qlt_floor x) as Fh.
  assert (H1 : (inject_Z z < inject_Z (Qfloor x + 1))%Q) by lra.
  assert (H2 : (inject_Z (Qfloor x) < inject_Z (z + 1))%Q) by lra.
  rewrite <- Zlt_Qlt in H1, H2. lia.
Qed.

Lemma Qfloor_div_60 (q : Q) : Qfloor (q / 60) = Qfloor q / 60.
Proof.
  pose proof (Qfloor_le q) as Fl. pose proof (Qlt_floor q) as Fh.
  pose proof (Z.div_mod (Qfloor q) 60 ltac:(lia)) as E.
  pose proof (Z.mod_pos_bound (Qfloor q) 60 ltac:(lia)) as B.
  set (t := Qfloor q) in *. set (k := t / 60) in *. set (r := t mod 60) in *.
  assert (Et : (inject_Z t == 60 * inject_Z k + inject_Z r)%Q).
  { rewrite E, inject_Z_plus, inject_Z_mult. reflexivity. }
  assert (Br : (0 <= inject_Z r)%Q /\ (inject_Z r <= 59)%Q).
  { split.
    - change 0%Q with (inject_Z 0). rewrite <- Zle_Qle. lia.
    - change 59%Q with (inject_Z 59). rewrite <- Zle_Qle. lia. }
  rewrite inject_Z_plus in Fh. change (inject_Z 1) with 1%Q in Fh.
  apply Qfloor_unique.
  - apply Qle_shift_div_l; lra.
  - rewrite inject_Z_plus. change (inject_Z 1) with 1%Q.
    apply Qlt_shift_div_r; lra.
Qed.

Lemma Qfloor_sub_Z (q : Q) (k : Z) :
  Qfloor (q - inject_Z k) = Qfloor q - k.
Proof.
  pose proof (Qfloor_le q) as Fl. pose proof (Qlt_floor q) as Fh.
  rewrite inject_Z_plus in Fh. change (inject_Z 1) with 1%Q in Fh.
  apply Qfloor_unique.
  - unfold Z.sub. rewrite inject_Z_plus, inject_Z_opp. lra.
  - replace (Qfloor q - k + 1) with (Qfloor q + 1 + - k) by lia.
    rewrite !inject_Z_plus, inject_Z_opp. change (inject_Z 1) with 1%Q. lra.
Qed.

Lemma as_integer_inject_Z (z : Z) : as_integer (inject_Z z) = Some z.
Proof.
  unfold as_integer. rewrite Qfloor_Z.
  replace (Qeq_bool (inject_Z z) (inject_Z z)) with true; [reflexivity|].
  symmetry. apply Qeq_bool_iff. reflexivity.
Qed.

Lemma padStart_seconds (s : Z) :
  0 <= s < 60 -> padStart (decimal s) 2 "0" = two_digits s.
Proof.
  intro H.
  rewrite <- (Z2Nat.id s) by lia.
  assert (Hn : (Z.to_nat s < 60)%nat) by lia.
  revert Hn. generalize (Z.to_nat s) as n. clear H.
  intros n Hn.
  do 60 (destruct n as [|n]; [reflexivity|]).
  lia.
Qed.

Lemma toString_small (sd : Q -> string) (z : Z) :
  Z.abs z < 2 ^ 53 -> toString sd (Fin (inject_Z z)) = decimal z.
Proof.
  intro H. unfold toString. rewrite as_integer_inject_Z.
  apply Z.ltb_lt in H. rewrite H. reflexivity.
Qed.

Lemma formatTime_finite (sd : Q -> string) (q : Q) :
  (0 <= q)%Q ->
  formatTime sd (Fin q)
  = (toString sd (Fin (inject_Z (Qfloor q / 60))) ++ ":"
       ++ two_digits (Qfloor q mod 60))%string.
Proof.
  intro Hq. unfold formatTime.
  assert (Hlt : lt (Fin q) zero = false) by (apply Qltb_ge; exact Hq).
  rewrite Hlt. cbn [isFinite negb orb].
  assert (Hd : div (Fin q) (Fin 60) = Fin (q / 60)) by reflexivity.
  assert (Hpos : (0 <= q / 60)%Q) by (apply Qle_shift_div_l; lra).
  assert (Hr : rem (Fin q) (Fin 60)
               = Fin (q - 60 * inject_Z (Qfloor (q / 60)))).
  { unfold rem, Qtrunc. apply Qle_bool_iff in Hpos. rewrite Hpos.
    reflexivity. }
  rewrite Hd, Hr. cbn [Math_floor].
  rewrite Qfloor_div_60.
  set (m := Qfloor q / 60).
  assert (Hs : Qfloor (q - 60 * inject_Z m) = Qfloor q mod 60).
  { assert (E : (q - 60 * inject_Z m == q - inject_Z (60 * m))%Q).
    { rewrite inject_Z_mult. reflexivity. }
    rewrite (Qfloor_comp _ _ E), Qfloor_sub_Z.
    unfold m. rewrite Z.mod_eq by lia. reflexivity. }
  rewrite Hs.
  pose proof (Z.mod_pos_bound (Qfloor q) 60 ltac:(lia)) as B.
  rewrite (toString_small sd (Qfloor q mod 60)) by lia.
  rewrite padStart_seconds by exact B.
  reflexivity.
Qed.

(** C7.  [formatTime] renders every non-negative finite number of seconds as
    M:SS: M is a whole number as JavaScript prints it, SS is the whole
    seconds modulo 60, on two digits.  Below [2^53] seconds, where the
    quotient by 60 is floored in doubles as it is in the rationals and a
    whole number prints with all its digits, M is the whole number of
    minutes in decimal.  Every negative or non-finite input gives ["0:00"];
    0, 65, -3 and NaN give "0:00", "1:05", "0:00" and "0:00". *)
Theorem formatTime_M_SS (sd : Q -> string) :
  (forall sec, isFinite sec = false \/ lt sec zero = true ->
     formatTime sd sec = "0:00"%string)
  /\ (forall q, (0 <= q)%Q ->
        exists m,
          0 <= m
          /\ formatTime sd (Fin q)
             = (toString sd (Fin (inject_Z m)) ++ ":"
                  ++ two_digits (Qfloor q mod 60))%string
          /\ 0 <= Qfloor q mod 60 < 60
          /\ String.length (two_digits (Qfloor q mod 60)) = 2%nat)
  /\ (forall q, (0 <= q)%Q -> (q < inject_Z (2 ^ 53))%Q ->
        formatTime sd (Fin q)
        = (decimal (Qfloor q / 60) ++ ":"
             ++ two_digits (Qfloor q mod 60))%string)
  /\ formatTime sd (Fin 0) = "0:00"%string
  /\ formatTime sd (Fin 65) = "1:05"%string
  /\ formatTime sd (Fin (-3)) = "0:00"%string
  /\ formatTime sd NaN = "0:00"%string.
Proof.
  assert (Hmin : forall q, (0 <= q)%Q -> 0 <= Qfloor q / 60).
  { intros q Hq. apply Z.div_pos; [|lia].
    rewrite <- (Qfloor_Z 0). apply Qfloor_resp_le. exact Hq. }
  split; [|split; [|split; [|repeat split; reflexivity]]].
  - intros sec [H|H]; unfold formatTime; rewrite H; [reflexivity|].
    rewrite orb_true_r. reflexivity.
  - intros q Hq. exists (Qfloor q / 60).
    split; [apply Hmin; exact Hq|].
    split; [apply formatTime_finite; exact Hq|].
    split; [apply Z.mod_pos_bound; lia|reflexivity].
  - intros q Hq Hbig. rewrite (formatTime_finite sd q Hq).
    rewrite toString_small; [reflexivity|].
    assert (H0 : 0 <= Qfloor q).
    { rewrite <- (Qfloor_Z 0). apply Qfloor_resp_le. exact Hq. }
    assert (H1 : Qfloor q < 2 ^ 53).
    { pose proof (Qfloor_le q) as F. rewrite Zlt_Qlt. lra. }
    pose proof (Hmin q Hq) as H2.
    assert (H3 : Qfloor q / 60 <= Qfloor q)
      by (apply Z.div_le_upper_bound; lia).
    lia.
Qed.

(** At one minute and five and a half seconds. *)
Lemma formatTime_M_SS_witness :
  formatTime (fun _ => EmptyString) (Fin (131 # 2)) = "1:05"%string.
Proof.
  destruct (formatTime_M_SS (fun _ => EmptyString)) as [_ [_ [H _]]].
  rewrite (H (131 # 2)%Q); [reflexivity|discriminate|reflexivity].
Defined.

(** ** Rendering *)

Section Rendering.

Variable tracks : list Track.

Lemma track_at_range (i : Z) (t : Track) :
  track_at tracks i = Some t -> 0 <= i < length tracks.
Proof.
  unfold track_at, length. destruct (i <? 0) eqn:E; [discriminate|].
  intro H. apply Z.ltb_ge in E.
  assert (Hn : nth_error tracks (Z.to_nat i) <> None) by congruence.
  apply nth_error_Some in Hn. lia.
Qed.

Lemma track_at_some (i : Z) :
  0 <= i < length tracks -> exists t, track_at tracks i = Some t.
Proof.
  unfold track_at, length. intros [H0 H1].
  assert (E : (i <? 0) = false) by (apply Z.ltb_ge; exact H0).
  rewrite E.
  destruct (nth_error tracks (Z.to_nat i)) as [t|] eqn:N.
  - exists t. reflexivity.
  - apply nth_error_None in N. lia.
Qed.

Lemma scope_of_some (s : State) :
  0 <= index s < length tracks ->
  exists t, scope_of tracks s
            = Some {| sc_index := index s; sc_track := t;
                      sc_isShuffle := isShuffle s;
                      sc_isRepeat := isRepeat s |}
            /\ track_at tracks (index s) = Some t.
Proof.
  intro H. destruct (track_at_some _ H) as [t Ht].
  exists t. unfold scope_of. rewrite Ht. split; reflexivity.
Qed.

Lemma scope_of_index (s : State) (sc : Scope) :
  scope_of tracks s = Some sc ->
  sc_index sc = index s /\ sc_isShuffle sc = isShuffle s
  /\ sc_isRepeat sc = isRepeat s
  /\ track_at tracks (index s) = Some (sc_track sc)
  /\ 0 <= index s < length tracks.
Proof.
  unfold scope_of. destruct (track_at tracks (index s)) as [t|] eqn:E;
    [|discriminate].
  intro H. injection H as <-. cbn.
  repeat split; try reflexivity; apply (track_at_range _ _ E).
Qed.

Lemma same_loadDeps_refl (d : Z * string * bool) :
  same_loadDeps (Some d) d = true.
Proof.
  destruct d as [[i u] r]. cbn.
  rewrite Z.eqb_refl, String.eqb_refl, eqb_reflx. reflexivity.
Qed.

(** A state a render left behind renders to itself. *)
Lemma render_rendered (s : State) :
  rendered tracks s = true -> render tracks s = Ok s.
Proof.
  unfold rendered, render.
  destruct (scope_of tracks s) as [sc|]; [|discriminate].
  intro H. apply andb_true_iff in H as [H1 H2]. cbv zeta.
  rewrite H1, H2. reflexivity.
Qed.

(** A render throws exactly when [tracks[index]] is [undefined]; otherwise
    it keeps the index, the modes and the volume, and leaves the listeners
    alone or replaces them by those of its own scope. *)
Lemma render_spec (s : State) :
  match scope_of tracks s with
  | None => render tracks s = Throws
  | Some sc =>
      exists s', render tracks s = Ok s'
                 /\ index s' = index s
                 /\ isShuffle s' = isShuffle s
                 /\ isRepeat s' = isRepeat s
                 /\ volume s' = volume s
                 /\ (listeners s' = listeners s \/ listeners s' = Some sc)
                 /\ (audioRef s = None <-> audioRef s' = None)
                 /\ rendered tracks s' = true
  end.
Proof.
  destruct (scope_of tracks s) as [sc|] eqn:Esc.
  2:{ unfold render. rewrite Esc. reflexivity. }
  unfold render. rewrite Esc. cbv zeta.
  eexists. split; [reflexivity|].
  apply scope_of_index in Esc as (Ei & _ & _ & Et & _).
  unfold rendered, scope_of, loadEffect, volumeEffect.
  destruct s as [i st sh rp cu du vo [a|] li ld vd]; cbn in *;
    destruct (same_loadDeps ld _) eqn:EL; cbn;
    destruct (same_volumeDeps vd vo) eqn:EV; cbn;
    rewrite Et; cbn;
    rewrite ?Z.eqb_refl, ?String.eqb_refl, ?eqb_reflx, ?same_value_refl,
      ?EL, ?EV; cbn;
    repeat split; auto; try discriminate.
Qed.

Lemma render_rendered_post (s s' : State) :
  render tracks s = Ok s' -> rendered tracks s' = true.
Proof.
  intro H. pose proof (render_spec s) as R.
  destruct (scope_of tracks s).
  - destruct R as [s1 [E R]]. rewrite H in E. injection E as ->. apply R.
  - congruence.
Qed.

(** The load effect runs when its dependency list changed. *)
Lemma render_reload (s : State) (sc : Scope) :
  scope_of tracks s = Some sc ->
  same_loadDeps (loadDeps s) (index s, audioUrl (sc_track sc), isRepeat s)
  = false ->
  same_volumeDeps (volumeDeps s) (volume s) = true ->
  render tracks s
  = Ok (loadEffect sc
          (with_loadDeps (index s, audioUrl (sc_track sc), isRepeat s) s)).
Proof.
  intros Esc EL EV. unfold render. rewrite Esc. cbv zeta. rewrite EL.
  unfold loadEffect. cbn [audioRef with_loadDeps].
  destruct (audioRef s); cbn; rewrite EV; reflexivity.
Qed.

End Rendering.

(** ** Seeking and volume *)

Lemma same_value_sym (a b : number) : same_value a b = same_value b a.
Proof.
  destruct a as [| | |x], b as [| | |y]; simpl; try reflexivity.
  destruct (Qeq_bool x y) eqn:E1, (Qeq_bool y x) eqn:E2; try reflexivity.
  - apply Qeq_bool_iff in E1. symmetry in E1. apply Qeq_bool_iff in E1.
    congruence.
  - apply Qeq_bool_iff in E2. symmetry in E2. apply Qeq_bool_iff in E2.
    congruence.
Qed.

Lemma same_value_trans (a b c : number) :
  same_value a b = true -> same_value b c = true -> same_value a c = true.
Proof.
  destruct a as [| | |x], b as [| | |y], c as [| | |z]; simpl;
    try discriminate; try reflexivity.
  intros H1 H2. apply Qeq_bool_iff in H1, H2. apply Qeq_bool_iff.
  rewrite H1. exact H2.
Qed.

Lemma same_value_unit (g v : number) :
  v <> NaN -> same_value g (clamp v zero one) = true ->
  le zero g = true /\ le g one = true.
Proof.
  intros Hv H. destruct (clamp_unit v Hv) as [x [E [H0 H1]]].
  rewrite E in H. destruct g as [| | |y]; simpl in H; try discriminate.
  apply Qeq_bool_iff in H. unfold zero, one. rewrite !le_Fin. lra.
Qed.

Section SeekAndVolume.

Variable tracks : list Track.

(** C5, as the component has it.  [seekTo(p)] changes nothing, on the
    state or on the element, while the duration is unknown (0), and nothing
    either when t = clamp(p, 0, 1) * duration is not finite: the element
    refuses the position and currentTime is not set.  Otherwise it writes t
    to the element's position and sets currentTime to t at once.  For every
    p that is a number and a known finite duration, t is finite and
    0 <= currentTime <= duration follows. *)
Theorem seekTo_spec (s : State) (a : Audio) (p : number) :
  rendered tracks s = true ->
  audioRef s = Some a ->
  step tracks s (User (SeekTo p)) = Ok (seekTo p s)
  /\ (truthy (duration s) = false -> seekTo p s = s)
  /\ (duration s = zero -> seekTo p s = s)
  /\ (isFinite (mul (clamp p zero one) (duration s)) = false ->
      seekTo p s = s)
  /\ (truthy (duration s) = true ->
      isFinite (mul (clamp p zero one) (duration s)) = true ->
      let t := mul (clamp p zero one) (duration s) in
      current (seekTo p s) = t
      /\ duration (seekTo p s) = duration s
      /\ status (seekTo p s) = status s
      /\ index (seekTo p s) = index s
      /\ exists a', audioRef (seekTo p s) = Some a'
                    /\ el_currentTime a' = t
                    /\ el_calls a' = el_calls a ++ [SetCurrentTime t])
  /\ (forall d, p <> NaN -> duration s = Fin d -> (0 < d)%Q ->
      exists x, current (seekTo p s) = Fin x /\ (0 <= x <= d)%Q
                /\ Fin x = mul (clamp p zero one) (duration s)).
Proof.
  intros Hr Ha.
  set (t := mul (clamp p zero one) (duration s)).
  assert (Hfalsy : truthy (duration s) = false -> seekTo p s = s).
  { intro H. unfold seekTo. rewrite Ha, H. reflexivity. }
  assert (Hrefused : isFinite t = false -> seekTo p s = s).
  { intro H. unfold seekTo. rewrite Ha. fold t.
    rewrite (audio_set_currentTime_refused t a H).
    destruct (negb (truthy (duration s))); reflexivity. }
  assert (Htaken : truthy (duration s) = true -> isFinite t = true ->
                   seekTo p s
                   = setCurrent t (with_audio (audio_seeked t a) s)).
  { intros H Hf. unfold seekTo. rewrite Ha, H. fold t.
    rewrite (audio_set_currentTime_finite t a Hf). reflexivity. }
  split; [|split; [exact Hfalsy|split; [|split; [exact Hrefused|split]]]].
  - unfold step, handle, command.
    assert (Hsc : exists sc, scope_of tracks s = Some sc).
    { unfold rendered in Hr. destruct (scope_of tracks s) as [sc|];
        [exists sc; reflexivity|discriminate]. }
    destruct Hsc as [sc Hsc]. rewrite Hsc. cbn [bind].
    apply render_rendered.
    destruct (truthy (duration s)) eqn:E; [|rewrite (Hfalsy eq_refl); exact Hr].
    destruct (isFinite t) eqn:Ef; [|rewrite (Hrefused eq_refl); exact Hr].
    rewrite (Htaken eq_refl eq_refl). exact Hr.
  - intro H. apply Hfalsy. rewrite H. reflexivity.
  - intros H Hf. cbv zeta. fold t. rewrite (Htaken H Hf). cbn.
    repeat split; try reflexivity.
    eexists. repeat split; reflexivity.
  - intros d Hp Hd Hpos.
    assert (H : truthy (duration s) = true).
    { rewrite Hd. cbn. apply negb_true_iff.
      destruct (Qeq_bool d 0) eqn:E; [|reflexivity].
      apply Qeq_bool_iff in E. lra. }
    destruct (clamp_unit p Hp) as [x [Ex [H0 H1]]].
    assert (Et : t = Fin (x * d)).
    { unfold t. rewrite Ex, Hd. reflexivity. }
    assert (Hf : isFinite t = true) by (rewrite Et; reflexivity).
    rewrite (Htaken H Hf). cbn. rewrite Et.
    exists (x * d)%Q. split; [reflexivity|]. split; [|reflexivity]. split.
    + apply Qmult_le_0_compat; lra.
    + rewrite <- (Qmult_1_l d) at 2. apply Qmult_le_compat_r; lra.
Qed.

(** C6.  For every [v] that is a number, [setVolume(v)] makes the gain of
    the element clamp(v, 0, 1), in [[0, 1]], whatever the status is; -0.5
    gives 0 and 1.7 gives 1. *)
Theorem setVolume_clamps (s : State) (a : Audio) (v : number) :
  rendered tracks s = true ->
  audioRef s = Some a ->
  same_value (el_volume a) (clamp (volume s) zero one) = true ->
  v <> NaN ->
  exists s' a',
    step tracks s (User (SetVolumeTo v)) = Ok s'
    /\ audioRef s' = Some a'
    /\ volume s' = v
    /\ status s' = status s
    /\ same_value (el_volume a') (clamp v zero one) = true
    /\ le zero (el_volume a') = true
    /\ le (el_volume a') one = true
    /\ (same_value (volume s) v = false ->
        el_volume a' = clamp v zero one
        /\ el_calls a' = el_calls a ++ [SetVolume (clamp v zero one)])
    /\ (v = Fin (-5 # 10) -> same_value (el_volume a') zero = true)
    /\ (v = Fin (17 # 10) -> same_value (el_volume a') one = true).
Proof.
  intros Hr Ha Hsync Hv.
  unfold rendered in Hr.
  destruct (scope_of tracks s) as [sc|] eqn:Hsc; [|discriminate].
  apply andb_true_iff in Hr as [HL HV].
  unfold same_volumeDeps in HV.
  destruct (volumeDeps s) as [w|] eqn:Hw; [|discriminate].
  assert (Hstep : step tracks s (User (SetVolumeTo v))
                  = render tracks (setVolume v s)).
  { unfold step, handle, command. rewrite Hsc. reflexivity. }
  assert (Hsc' : scope_of tracks (setVolume v s) = Some sc) by exact Hsc.
  assert (Hgain : forall g, same_value g (clamp v zero one) = true ->
            le zero g = true /\ le g one = true
            /\ (v = Fin (-5 # 10) -> same_value g zero = true)
            /\ (v = Fin (17 # 10) -> same_value g one = true)).
  { intros g Hg.
    destruct (same_value_unit g v Hv Hg) as [G0 G1].
    split; [exact G0|]. split; [exact G1|].
    split; intros ->; exact Hg. }
  destruct (same_value w v) eqn:Esame.
  - (* the dependency is unchanged: no effect runs *)
    exists (setVolume v s), a.
    assert (Hg : same_value (el_volume a) (clamp v zero one) = true).
    { apply (same_value_trans _ _ _ Hsync). apply clamp_same_value.
      rewrite same_value_sym in HV.
      apply (same_value_trans _ _ _ HV Esame). }
    destruct (Hgain _ Hg) as (G0 & G1 & G2 & G3).
    split.
    { rewrite Hstep. apply render_rendered. unfold rendered.
      rewrite Hsc'. cbn. rewrite HL, Hw. cbn. rewrite Esame. reflexivity. }
    split; [exact Ha|]. split; [reflexivity|]. split; [reflexivity|].
    split; [exact Hg|]. split; [exact G0|]. split; [exact G1|].
    split; [|split; assumption].
    intro Hne. exfalso.
    rewrite same_value_sym in HV.
    rewrite (same_value_trans _ _ _ HV Esame) in Hne. discriminate.
  - (* the volume effect runs *)
    exists (with_audio (audio_set_volume (clamp v zero one) a)
              (with_volumeDeps v (setVolume v s))),
           (audio_set_volume (clamp v zero one) a).
    assert (Hg : same_value (clamp v zero one) (clamp v zero one) = true)
      by apply same_value_refl.
    destruct (Hgain _ Hg) as (G0 & G1 & G2 & G3).
    split.
    { rewrite Hstep. unfold render. rewrite Hsc'. cbn.
      rewrite HL. cbn. rewrite Hw. cbn. rewrite Esame.
      unfold volumeEffect. cbn. rewrite Ha. reflexivity. }
    split; [reflexivity|]. split; [reflexivity|]. split; [reflexivity|].
    split; [exact Hg|]. split; [exact G0|]. split; [exact G1|].
    split; [|split; assumption].
    intros _. split; reflexivity.
Qed.

End SeekAndVolume.

(** ** What every run keeps *)

Section Invariant.

Variable tracks : list Track.

Lemma draw_index_range (r : Q) :
  (0 <= r < 1)%Q -> 0 < length tracks ->
  0 <= draw_index tracks r < length tracks.
Proof.
  intros [H0 H1] HL. unfold draw_index.
  set (l := length tracks) in *.
  assert (Hl : (0 < inject_Z l)%Q).
  { change 0%Q with (inject_Z 0). rewrite <- Zlt_Qlt. exact HL. }
  assert (Hlo : (0 <= r * inject_Z l)%Q) by (apply Qmult_le_0_compat; lra).
  assert (Hhi : (r * inject_Z l < inject_Z l)%Q).
  { rewrite <- (Qmult_1_l (inject_Z l)) at 2.
    apply Qmult_lt_compat_r; lra. }
  split.
  - rewrite <- (Qfloor_Z 0). apply Qfloor_resp_le. exact Hlo.
  - pose proof (Qfloor_le (r * inject_Z l)) as F.
    rewrite Zlt_Qlt. lra.
Qed.

Lemma resample_ok (idx : Z) (draws : list Q) (j : Z) :
  resample tracks idx draws = Ok j ->
  j <> idx /\ exists r, In r draws /\ j = draw_index tracks r.
Proof.
  induction draws as [|r rest IH]; cbn [resample]; [discriminate|].
  destruct (draw_index tracks r =? idx) eqn:E.
  - intro H. destruct (IH H) as [Hne [r' [Hin Hj]]].
    split; [exact Hne|]. exists r'. split; [right; exact Hin|exact Hj].
  - intro H. injection H as <-. apply Z.eqb_neq in E.
    split; [exact E|]. exists r. split; [left; reflexivity|reflexivity].
Qed.

Lemma resample_never_throws (idx : Z) (draws : list Q) :
  resample tracks idx draws <> Throws.
Proof.
  induction draws as [|r rest IH]; cbn [resample]; [discriminate|].
  destruct (draw_index tracks r =? idx); [exact IH|discriminate].
Qed.

Lemma pickRandomNext_range (sc : Scope) (draws : list Q) :
  unit_draws draws ->
  0 <= sc_index sc < length tracks ->
  pickRandomNext tracks sc draws <> Throws
  /\ forall j, pickRandomNext tracks sc draws = Ok j ->
               0 <= j < length tracks.
Proof.
  intros Hd Hi. unfold pickRandomNext.
  destruct (length tracks <=? 1) eqn:E.
  - split; [discriminate|]. intros j H. injection H as <-. exact Hi.
  - split; [apply resample_never_throws|].
    intros j H. apply resample_ok in H as [_ [r [Hin ->]]].
    apply draw_index_range; [|lia].
    unfold unit_draws in Hd. rewrite Forall_forall in Hd. apply Hd, Hin.
Qed.

Lemma rem_succ_range (i : Z) :
  0 <= i < length tracks ->
  Z.rem (i + 1) (length tracks) = (i + 1) mod length tracks
  /\ 0 <= (i + 1) mod length tracks < length tracks.
Proof.
  intro H. split; [apply Z.rem_mod_nonneg; lia|apply Z.mod_pos_bound; lia].
Qed.

Lemma rem_pred_range (i : Z) :
  0 <= i < length tracks ->
  Z.rem (i - 1 + length tracks) (length tracks)
  = (i - 1 + length tracks) mod length tracks
  /\ 0 <= (i - 1 + length tracks) mod length tracks < length tracks.
Proof.
  intro H. split; [apply Z.rem_mod_nonneg; lia|apply Z.mod_pos_bound; lia].
Qed.

(** [next] and [prev] never throw, and what they return keeps everything
    but the index, which stays inside the playlist. *)
Lemma next_prev_range (sc : Scope) (draws : list Q) (s : State) :
  unit_draws draws ->
  0 <= sc_index sc < length tracks ->
  0 <= index s < length tracks ->
  (next tracks sc draws s <> Throws
   /\ forall s', next tracks sc draws s = Ok s' ->
        exists j, s' = setIndex j s /\ 0 <= j < length tracks)
  /\ (prev tracks sc draws s <> Throws
      /\ forall s', prev tracks sc draws s = Ok s' ->
           exists j, s' = setIndex j s /\ 0 <= j < length tracks).
Proof.
  intros Hd Hsc Hi.
  destruct (pickRandomNext_range sc draws Hd Hsc) as [Hnt Hr].
  destruct (rem_succ_range _ Hi) as [_ Hs].
  destruct (rem_pred_range _ Hi) as [_ Hp].
  unfold next, prev.
  destruct (sc_isShuffle sc).
  - destruct (pickRandomNext tracks sc draws) as [j| |] eqn:E;
      cbn; [|congruence|].
    + specialize (Hr j eq_refl).
      split; (split; [discriminate|]); intros s' H; injection H as <-;
        exists j; split; [reflexivity|exact Hr|reflexivity|exact Hr].
    + split; (split; [discriminate|]); intros s' H; discriminate.
  - cbn. rewrite (proj1 (rem_succ_range _ Hi)), (proj1 (rem_pred_range _ Hi)).
    split; (split; [discriminate|]); intros s' H; injection H as <-;
      eexists; (split; [reflexivity|]); assumption.
Qed.

(** Handlers leave the dependency lists and the listeners alone and do not
    touch the gain of the element: coherence carries over. *)
Lemma coherent_transfer (s s' : State) :
  coherent tracks s ->
  volumeDeps s' = volumeDeps s ->
  loadDeps s' = loadDeps s ->
  listeners s' = listeners s ->
  (exists a a', audioRef s = Some a /\ audioRef s' = Some a'
                /\ el_volume a' = el_volume a) ->
  coherent tracks s'.
Proof.
  intros [[a [w [Ha [Hw Hs]]]] [sc [Hl [Hd Ht]]]] Ev El Eli
         [a0 [a' [Ha0 [Ha' Eg]]]].
  rewrite Ha in Ha0. injection Ha0 as <-.
  split.
  - exists a', w. rewrite Ha', Ev, Hw, Eg. auto.
  - exists sc. rewrite Eli, El. auto.
Qed.

Lemma mounted_facts (s : State) :
  mounted tracks s ->
  0 <= index s < length tracks
  /\ exists a sc t,
       audioRef s = Some a
       /\ listeners s = Some sc
       /\ sc_index sc = index s
       /\ sc_isRepeat sc = isRepeat s
       /\ track_at tracks (index s) = Some t
       /\ sc_track sc = t
       /\ scope_of tracks s
          = Some {| sc_index := index s; sc_track := t;
                    sc_isShuffle := isShuffle s;
                    sc_isRepeat := isRepeat s |}
       /\ same_value (el_volume a) (clamp (volume s) zero one) = true.
Proof.
  intros [Hr [[a [w [Ha [Hw Hs]]]] [sc [Hl [Hd Ht]]]]].
  unfold rendered in Hr.
  destruct (scope_of tracks s) as [sc0|] eqn:Esc; [|discriminate].
  pose proof (scope_of_index _ _ _ Esc) as (Ei & Esh & Erp & Et & Hrange).
  apply andb_true_iff in Hr as [HL HV].
  rewrite Hd in HL. cbn in HL.
  apply andb_true_iff in HL as [HL Hrp].
  apply andb_true_iff in HL as [Hi Hu].
  apply Z.eqb_eq in Hi. apply eqb_prop in Hrp.
  rewrite Hw in HV. cbn in HV.
  split; [exact Hrange|].
  exists a, sc, (sc_track sc0).
  rewrite Hi in Ht. rewrite Et in Ht. injection Ht as Ht.
  repeat split; auto.
  - destruct sc0; cbn in *; subst; reflexivity.
  - apply (same_value_trans _ _ _ Hs). apply clamp_same_value. exact HV.
Qed.

(** Rendering a coherent state whose index is inside the playlist gives a
    mounted state. *)
Lemma render_coherent (s : State) :
  coherent tracks s ->
  0 <= index s < length tracks ->
  exists s', render tracks s = Ok s' /\ mounted tracks s'
             /\ index s' = index s.
Proof.
  intros Hc Hi.
  destruct (scope_of_some tracks s Hi) as [t [Hsc Ht]].
  pose proof (render_spec tracks s) as R. rewrite Hsc in R.
  destruct R as [s' [E [Ei [_ [_ [_ [_ [_ Hr]]]]]]]].
  exists s'. split; [exact E|]. split; [|exact Ei].
  split; [exact Hr|].
  destruct Hc as [[a [w [Ha [Hw Hs]]]] [sc [Hl [Hd Htr]]]].
  unfold render in E. rewrite Hsc in E. cbv zeta in E.
  unfold loadEffect, volumeEffect, coherent in *.
  destruct s as [i st sh rp cu du vo ar li ld vd]; cbn in *. subst.
  destruct (same_loadDeps _ _) eqn:EL; cbn in E;
    destruct (same_value w vo) eqn:EV; cbn in E;
    injection E as <-; cbn; split;
    try (eexists; eexists; repeat split; try reflexivity;
         first [exact Hs | apply same_value_refl]);
    try (exists sc; repeat split; assumption);
    try (eexists; repeat split; try reflexivity; exact Ht).
Qed.

(** A handler started in a mounted state does not throw, and hands to the
    render a coherent state whose index is inside the playlist. *)
Lemma handle_mounted (s : State) (i : Input) :
  mounted tracks s -> input_ok i ->
  handle tracks s i <> Throws
  /\ forall s1, handle tracks s i = Ok s1 ->
        coherent tracks s1 /\ 0 <= index s1 < length tracks.
Proof.
  intros Hm Hi.
  pose proof (mounted_facts s Hm)
    as (Hrange & a & sc & t & Ha & Hl & Hsi & Hsr & Ht & Hst & Hsc & Hg).
  destruct Hm as [Hr Hc].
  assert (Hscr : 0 <= sc_index sc < length tracks) by (rewrite Hsi; exact Hrange).
  assert (Keep : forall s1 a1,
             volumeDeps s1 = volumeDeps s -> loadDeps s1 = loadDeps s ->
             listeners s1 = listeners s -> audioRef s1 = Some a1 ->
             el_volume a1 = el_volume a -> index s1 = index s ->
             coherent tracks s1 /\ 0 <= index s1 < length tracks).
  { intros s1 a1 E1 E2 E3 E4 E5 E6. split; [|rewrite E6; exact Hrange].
    apply (coherent_transfer s s1 Hc E1 E2 E3). exists a, a1. auto. }
  assert (Moved : forall s0 a0 j,
             volumeDeps s0 = volumeDeps s -> loadDeps s0 = loadDeps s ->
             listeners s0 = listeners s -> audioRef s0 = Some a0 ->
             el_volume a0 = el_volume a -> 0 <= j < length tracks ->
             coherent tracks (setIndex j s0)
             /\ 0 <= index (setIndex j s0) < length tracks).
  { intros s0 a0 j E1 E2 E3 E4 E5 Hj. split; [|exact Hj].
    apply (coherent_transfer s (setIndex j s0) Hc E1 E2 E3).
    exists a, a0. auto. }
  destruct i as [c | g e | ok]; cbn [handle].
  - (* a command *)
    unfold command. rewrite Hsc.
    set (sc0 := {| sc_index := index s; sc_track := t;
                   sc_isShuffle := isShuffle s;
                   sc_isRepeat := isRepeat s |}).
    assert (Hsc0 : 0 <= sc_index sc0 < length tracks) by exact Hrange.
    destruct c as [ | draws | draws | | | p | v]; cbn in Hi.
    + split; [discriminate|]. intros s1 H. injection H as <-.
      unfold togglePlay. rewrite Ha.
      destruct (el_paused a); eapply Keep; reflexivity.
    + destruct (next_prev_range sc0 draws s Hi Hsc0 Hrange)
        as [[Hnt Hok] _].
      split; [exact Hnt|]. intros s1 H.
      destruct (Hok s1 H) as [j [-> Hj]].
      eapply Moved; try reflexivity; eassumption.
    + destruct (next_prev_range sc0 draws s Hi Hsc0 Hrange)
        as [_ [Hnt Hok]].
      split; [exact Hnt|]. intros s1 H.
      destruct (Hok s1 H) as [j [-> Hj]].
      eapply Moved; try reflexivity; eassumption.
    + split; [discriminate|]. intros s1 H. injection H as <-.
      eapply Keep; try reflexivity; eassumption.
    + split; [discriminate|]. intros s1 H. injection H as <-.
      eapply Keep; try reflexivity; eassumption.
    + split; [discriminate|]. intros s1 H. injection H as <-.
      unfold seekTo. rewrite Ha.
      destruct (negb (truthy (duration s)));
        [eapply Keep; try reflexivity; eassumption|].
      cbv zeta.
      destruct (audio_set_currentTime _ a) as [a'|] eqn:E;
        [|eapply Keep; try reflexivity; eassumption].
      apply audio_set_currentTime_some in E as [_ ->].
      eapply Keep; try reflexivity; eassumption.
    + split; [discriminate|]. intros s1 H. injection H as <-.
      eapply Keep; try reflexivity; eassumption.
  - (* a media event *)
    unfold dispatch. rewrite Ha. cbn [listeners with_audio]. rewrite Hl.
    assert (Hb : el_volume (browser_update e a) = el_volume a)
      by (destruct e; reflexivity).
    destruct e as [d | tm | draws | | | ]; cbn in Hi;
      try (split; [discriminate|]; intros s1 H; injection H as <-;
           unfold onLoaded, onTime, onWaiting, onPlaying, onPause;
           try destruct (negb _);
           eapply Keep; try reflexivity; eassumption).
    unfold onEnded. destruct (sc_isRepeat sc).
    + rewrite (audio_set_currentTime_finite zero _ eq_refl).
      split; [discriminate|]. intros s1 H. injection H as <-.
      eapply Keep; reflexivity.
    + destruct (next_prev_range sc draws
                  (with_audio (browser_update (Ended draws) a) s)
                  Hi Hscr Hrange) as [[Hnt Hok] _].
      split; [exact Hnt|]. intros s1 H.
      destruct (Hok s1 H) as [j [-> Hj]].
      eapply Moved; try reflexivity; eassumption.
  - (* a promise of play() settles *)
    split; [discriminate|]. intros s1 H. injection H as <-.
    unfold settle. rewrite Ha.
    destruct (el_pending a) as [|who rest];
      [eapply Keep; try reflexivity; eassumption|].
    destruct who, ok; eapply Keep; reflexivity.
Qed.

(** Every turn of the event loop keeps the component mounted and never
    throws. *)
Lemma step_mounted (s : State) (i : Input) :
  mounted tracks s -> input_ok i ->
  step tracks s i <> Throws
  /\ forall s', step tracks s i = Ok s' -> mounted tracks s'.
Proof.
  intros Hm Hi. destruct (handle_mounted s i Hm Hi) as [Hnt Hok].
  unfold step. destruct (handle tracks s i) as [s1| |]; cbn [bind].
  - destruct (Hok s1 eq_refl) as [Hc Hr].
    destruct (render_coherent s1 Hc Hr) as [s2 [E [Hm2 _]]].
    rewrite E. split; [discriminate|]. intros s' H. injection H as <-.
    exact Hm2.
  - congruence.
  - split; discriminate.
Qed.


(** The first render of a playlist that is not empty mounts the
    component on its first track. *)
Lemma mount_mounted :
  tracks <> [] ->
  exists s0, mount tracks = Ok s0 /\ mounted tracks s0 /\ index s0 = 0
             /\ status s0 = loading.
Proof.
  intro Hne. destruct tracks as [|t rest] eqn:Et; [congruence|].
  eexists. split; [reflexivity|]. cbn.
  split; [|split; reflexivity].
  split.
  - unfold rendered, scope_of. cbn.
    rewrite String.eqb_refl. reflexivity.
  - split.
    + eexists. eexists. repeat split.
    + eexists. repeat split.
Qed.

End Invariant.


(** ** Navigation *)

Section Navigation.

Variable tracks : list Track.

(** A handler that only moved the index to [j], inside the playlist, is
    followed by a render that keeps [j] and the shuffle flag. *)
Lemma render_after_setIndex (s : State) (j : Z) :
  0 <= j < length tracks ->
  exists s', render tracks (setIndex j s) = Ok s' /\ index s' = j
             /\ isShuffle s' = isShuffle s /\ isRepeat s' = isRepeat s.
Proof.
  intro Hj.
  destruct (scope_of_some tracks (setIndex j s) Hj) as [t [Hsc _]].
  pose proof (render_spec tracks (setIndex j s)) as R. rewrite Hsc in R.
  destruct R as [s' [E [Ei [Esh [Erp _]]]]].
  exists s'. repeat split; assumption.
Qed.

Lemma step_next_sequential (s : State) (draws : list Q) :
  0 <= index s < length tracks -> isShuffle s = false ->
  exists s', step tracks s (User (Next draws)) = Ok s'
             /\ index s' = (index s + 1) mod length tracks
             /\ isShuffle s' = false.
Proof.
  intros Hi Hsh.
  destruct (scope_of_some tracks s Hi) as [t [Hsc _]].
  destruct (rem_succ_range tracks _ Hi) as [Hrem Hr].
  destruct (render_after_setIndex s _ Hr) as [s' [E [Ei [Es _]]]].
  exists s'. unfold step, handle, command. rewrite Hsc.
  unfold next. cbn [sc_isShuffle]. rewrite Hsh. cbn [bind].
  rewrite Hrem, E. repeat split; congruence.
Qed.

Lemma step_prev_sequential (s : State) (draws : list Q) :
  0 <= index s < length tracks -> isShuffle s = false ->
  exists s', step tracks s (User (Prev draws)) = Ok s'
             /\ index s' = (index s - 1 + length tracks) mod length tracks
             /\ isShuffle s' = false.
Proof.
  intros Hi Hsh.
  destruct (scope_of_some tracks s Hi) as [t [Hsc _]].
  destruct (rem_pred_range tracks _ Hi) as [Hrem Hr].
  destruct (render_after_setIndex s _ Hr) as [s' [E [Ei [Es _]]]].
  exists s'. unfold step, handle, command. rewrite Hsc.
  unfold prev. cbn [sc_isShuffle]. rewrite Hsh. cbn [bind].
  rewrite Hrem, E. repeat split; congruence.
Qed.

Lemma run_next_sequential (ds : list (list Q)) (s : State) :
  0 <= index s < length tracks -> isShuffle s = false ->
  exists s', run tracks s (map (fun d => User (Next d)) ds) = Ok s'
             /\ index s'
                = (index s + Z.of_nat (List.length ds)) mod length tracks.
Proof.
  revert s. induction ds as [|d rest IH]; intros s Hi Hsh.
  - exists s. split; [reflexivity|]. cbn. rewrite Z.add_0_r.
    symmetry. apply Z.mod_small. exact Hi.
  - destruct (step_next_sequential s d Hi Hsh) as [s1 [E [Ei Es]]].
    assert (Hi1 : 0 <= index s1 < length tracks).
    { rewrite Ei. apply Z.mod_pos_bound. lia. }
    destruct (IH s1 Hi1 Es) as [s' [Er Ei']].
    exists s'. cbn [map run]. rewrite E. cbn [bind]. split; [exact Er|].
    rewrite Ei', Ei. rewrite Zplus_mod_idemp_l. f_equal.
    cbn [List.length]. lia.
Qed.

(** C3.  Without shuffle, [next()] moves the index [i] to (i + 1) mod L and
    [prev()] to (i - 1 + L) mod L, where L is the length of the playlist;
    [next()] L times in a row brings the index back. *)
Theorem sequential_navigation (s : State) (draws : list Q) :
  0 <= index s < length tracks ->
  isShuffle s = false ->
  (exists s', step tracks s (User (Next draws)) = Ok s'
              /\ index s' = (index s + 1) mod length tracks)
  /\ (exists s', step tracks s (User (Prev draws)) = Ok s'
                 /\ index s'
                    = (index s - 1 + length tracks) mod length tracks)
  /\ (forall ds : list (list Q),
        Z.of_nat (List.length ds) = length tracks ->
        exists s', run tracks s (map (fun d => User (Next d)) ds) = Ok s'
                   /\ index s' = index s).
Proof.
  intros Hi Hsh. split; [|split].
  - destruct (step_next_sequential s draws Hi Hsh) as [s' [E [Ei _]]].
    exists s'. split; assumption.
  - destruct (step_prev_sequential s draws Hi Hsh) as [s' [E [Ei _]]].
    exists s'. split; assumption.
  - intros ds Hlen.
    destruct (run_next_sequential ds s Hi Hsh) as [s' [E Ei]].
    exists s'. split; [exact E|].
    rewrite Ei, Hlen.
    rewrite <- (Z.mul_1_l (length tracks)) at 1.
    rewrite Z.mod_add by lia. apply Z.mod_small. exact Hi.
Qed.

Lemma resample_first (idx : Z) (pre post : list Q) (r : Q) :
  Forall (fun r' => draw_index tracks r' = idx) pre ->
  draw_index tracks r <> idx ->
  resample tracks idx (pre ++ r :: post) = Ok (draw_index tracks r).
Proof.
  intros Hpre Hr. induction Hpre as [|r' pre' Hr' _ IH]; cbn [app resample].
  - apply Z.eqb_neq in Hr. rewrite Hr. reflexivity.
  - apply Z.eqb_eq in Hr'. rewrite Hr'. exact IH.
Qed.

Lemma resample_spins (idx : Z) (draws : list Q) :
  Forall (fun r' => draw_index tracks r' = idx) draws ->
  resample tracks idx draws = Spins.
Proof.
  intro H. induction H as [|r' pre' Hr' _ IH]; cbn [resample].
  - reflexivity.
  - apply Z.eqb_eq in Hr'. rewrite Hr'. exact IH.
Qed.

(** Each index is drawn from an interval of [[0, 1)] of length 1 / L. *)
Lemma draw_index_interval (r : Q) (j : Z) :
  0 < length tracks ->
  draw_index tracks r = j
  <-> (inject_Z j / inject_Z (length tracks) <= r
       /\ r < inject_Z (j + 1) / inject_Z (length tracks))%Q.
Proof.
  intro HL. unfold draw_index. set (l := inject_Z (length tracks)).
  assert (Hl : (0 < l)%Q).
  { unfold l. change 0%Q with (inject_Z 0). rewrite <- Zlt_Qlt. exact HL. }
  split.
  - intros <-.
    pose proof (Qfloor_le (r * l)) as F1. pose proof (Qlt_floor (r * l)) as F2.
    split.
    + apply Qle_shift_div_r; [exact Hl|exact F1].
    + apply Qlt_shift_div_l; [exact Hl|exact F2].
  - intros [H1 H2]. apply Qfloor_unique.
    + apply (Qmult_le_compat_r _ _ l) in H1; [|lra].
      assert (E : (inject_Z j / l * l == inject_Z j)%Q) by (field; lra).
      rewrite E in H1. exact H1.
    + apply (Qmult_lt_compat_r _ _ l) in H2; [|exact Hl].
      assert (E : (inject_Z (j + 1) / l * l == inject_Z (j + 1))%Q)
        by (field; lra).
      rewrite E in H2. exact H2.
Qed.

(** C4.  With shuffle on, [prev()] does what [next()] does.  On a playlist
    of more than one track, [next()] takes results of [Math.random()] until
    one gives an index other than the current one, and that index, inside
    the playlist, is the new one: the index never stays; each index is
    drawn with the same chance.  On a playlist of one track the index
    stays. *)
Theorem shuffle_navigation (s : State) (draws : list Q) :
  0 <= index s < length tracks ->
  isShuffle s = true ->
  step tracks s (User (Prev draws)) = step tracks s (User (Next draws))
  /\ (length tracks = 1 ->
      exists s', step tracks s (User (Next draws)) = Ok s'
                 /\ index s' = index s)
  /\ (1 < length tracks ->
      (forall s', step tracks s (User (Next draws)) = Ok s' ->
         index s' <> index s
         /\ exists r, In r draws /\ index s' = draw_index tracks r)
      /\ (forall pre r post,
            draws = pre ++ r :: post ->
            Forall (fun r' => draw_index tracks r' = index s) pre ->
            draw_index tracks r <> index s ->
            (0 <= r < 1)%Q ->
            exists s', step tracks s (User (Next draws)) = Ok s'
                       /\ index s' = draw_index tracks r
                       /\ index s' <> index s
                       /\ 0 <= index s' < length tracks)
      /\ (Forall (fun r' => draw_index tracks r' = index s) draws ->
          step tracks s (User (Next draws)) = Spins))
  /\ (forall r j,
        draw_index tracks r = j
        <-> (inject_Z j / inject_Z (length tracks) <= r
             /\ r < inject_Z (j + 1) / inject_Z (length tracks))%Q).
Proof.
  intros Hi Hsh.
  destruct (scope_of_some tracks s Hi) as [t [Hsc _]].
  assert (Hnext : step tracks s (User (Next draws))
                  = (do j <- pickRandomNext tracks
                               {| sc_index := index s; sc_track := t;
                                  sc_isShuffle := isShuffle s;
                                  sc_isRepeat := isRepeat s |} draws;
                     render tracks (setIndex j s))).
  { unfold step, handle, command. rewrite Hsc. unfold next.
    cbn [sc_isShuffle]. rewrite Hsh.
    destruct (pickRandomNext _ _ _); reflexivity. }
  split; [|split; [|split]].
  - rewrite Hnext. unfold step, handle, command. rewrite Hsc. unfold prev.
    cbn [sc_isShuffle]. rewrite Hsh.
    destruct (pickRandomNext _ _ _); reflexivity.
  - intro H1. rewrite Hnext. unfold pickRandomNext. rewrite H1.
    cbn [Z.leb Z.compare Pos.compare Pos.compare_cont sc_index bind].
    destruct (render_after_setIndex s (index s) Hi) as [s' [E [Ei _]]].
    exists s'. split; assumption.
  - intro HL.
    assert (Hpick : forall sc, pickRandomNext tracks sc draws
                               = resample tracks (sc_index sc) draws).
    { intro sc. unfold pickRandomNext.
      assert (E : (length tracks <=? 1) = false) by (apply Z.leb_gt; exact HL).
      rewrite E. reflexivity. }
    rewrite Hnext, Hpick. cbn [sc_index].
    split; [|split].
    + intros s' H.
      destruct (resample tracks (index s) draws) as [j| |] eqn:E;
        cbn [bind] in H; try discriminate.
      apply resample_ok in E as [Hne [r [Hin Hj]]].
      pose proof (render_spec tracks (setIndex j s)) as R.
      destruct (scope_of tracks (setIndex j s)); [|congruence].
      destruct R as [s1 [E1 [Ei _]]]. rewrite H in E1. injection E1 as <-.
      cbn in Ei. rewrite Ei. split; [exact Hne|].
      exists r. split; assumption.
    + intros pre r post -> Hpre Hr Hunit.
      rewrite (resample_first _ pre post r Hpre Hr). cbn [bind].
      assert (Hj : 0 <= draw_index tracks r < length tracks)
        by (apply draw_index_range; [exact Hunit|lia]).
      destruct (render_after_setIndex s _ Hj) as [s' [E [Ei _]]].
      exists s'. rewrite Ei. repeat split; try assumption; apply Hj.
    + intro Hall. rewrite (resample_spins _ _ Hall). reflexivity.
  - intros r j. apply draw_index_interval. lia.
Qed.

End Navigation.

(** ** Loading, playing and the end of a track *)

Lemma loads_app (a : Audio) (cs : list Call) (n : nat) :
  List.length (filter is_load cs) = n ->
  List.length (filter is_load (el_calls a ++ cs)) = (loads a + n)%nat.
Proof.
  intros <-. unfold loads. rewrite filter_app, length_app. reflexivity.
Qed.

Section Transport.

Variable tracks : list Track.

(** What a run of the load effect leaves: status [loading], position and
    duration at 0, the source of the track of the scope set and loaded, one
    more load counted, and the listeners of the scope in place. *)
Lemma reload_spec (s : State) (sc : Scope) (a : Audio) :
  scope_of tracks s = Some sc ->
  audioRef s = Some a ->
  same_loadDeps (loadDeps s) (index s, audioUrl (sc_track sc), isRepeat s)
  = false ->
  same_volumeDeps (volumeDeps s) (volume s) = true ->
  exists s' a',
    render tracks s = Ok s'
    /\ index s' = index s /\ isRepeat s' = isRepeat s
    /\ isShuffle s' = isShuffle s /\ volume s' = volume s
    /\ status s' = loading /\ current s' = zero /\ duration s' = zero
    /\ audioRef s' = Some a'
    /\ el_src a' = audioUrl (sc_track sc)
    /\ el_calls a' = el_calls a ++ [SetSrc (audioUrl (sc_track sc)); Load]
    /\ el_volume a' = el_volume a
    /\ generation s' = S (generation s)
    /\ listeners s' = Some sc.
Proof.
  intros Hsc Ha EL EV.
  rewrite (render_reload tracks s sc Hsc EL EV).
  unfold loadEffect. cbn [audioRef with_loadDeps]. rewrite Ha.
  eexists. eexists. split; [reflexivity|]. cbn.
  repeat split; try reflexivity.
  - cbn. rewrite <- app_assoc. reflexivity.
  - unfold generation. rewrite Ha. rewrite <- app_assoc. cbn [app].
    rewrite (loads_app a [SetSrc (audioUrl (sc_track sc)); Load] 1 eq_refl).
    lia.
Qed.

Lemma rendered_deps (s : State) (sc : Scope) :
  rendered tracks s = true ->
  scope_of tracks s = Some sc ->
  same_volumeDeps (volumeDeps s) (volume s) = true
  /\ exists u, loadDeps s = Some (index s, u, isRepeat s)
               /\ String.eqb u (audioUrl (sc_track sc)) = true.
Proof.
  unfold rendered. intros Hr Hsc. rewrite Hsc in Hr.
  apply andb_true_iff in Hr as [HL HV]. split; [exact HV|].
  destruct (loadDeps s) as [[[i u] r]|]; [|discriminate].
  cbn in HL. apply andb_true_iff in HL as [HL Hrp].
  apply andb_true_iff in HL as [Hi Hu].
  apply Z.eqb_eq in Hi. apply eqb_prop in Hrp. subst.
  exists u. split; [reflexivity|exact Hu].
Qed.

(** C10.  Toggling repeat runs the load effect again for the track that is
    already current: the status becomes [loading], currentTime and duration
    go back to 0 and the source of that track is set and loaded once
    more. *)
Theorem toggleRepeat_reloads (s : State) (a : Audio) (sc : Scope) :
  rendered tracks s = true ->
  audioRef s = Some a ->
  scope_of tracks s = Some sc ->
  exists s' a',
    step tracks s (User ToggleRepeat) = Ok s'
    /\ isRepeat s' = negb (isRepeat s)
    /\ index s' = index s
    /\ track_at tracks (index s') = Some (sc_track sc)
    /\ status s' = loading /\ current s' = zero /\ duration s' = zero
    /\ audioRef s' = Some a'
    /\ el_src a' = audioUrl (sc_track sc)
    /\ el_calls a' = el_calls a ++ [SetSrc (audioUrl (sc_track sc)); Load]
    /\ generation s' = S (generation s).
Proof.
  intros Hr Ha Hsc.
  destruct (rendered_deps s sc Hr Hsc) as [HV [u [Hd Hu]]].
  pose proof (scope_of_index _ _ _ Hsc) as (Ei & Esh & Erp & Et & _).
  set (s1 := setIsRepeat (negb (isRepeat s)) s).
  set (sc1 := {| sc_index := index s; sc_track := sc_track sc;
                 sc_isShuffle := isShuffle s;
                 sc_isRepeat := negb (isRepeat s) |}).
  assert (Hsc1 : scope_of tracks s1 = Some sc1).
  { unfold scope_of, s1. cbn. rewrite Et. reflexivity. }
  assert (EL : same_loadDeps (loadDeps s1)
                 (index s1, audioUrl (sc_track sc1), isRepeat s1) = false).
  { unfold s1, sc1. cbn. rewrite Hd. cbn.
    destruct (isRepeat s); cbn; rewrite andb_false_r; reflexivity. }
  destruct (reload_spec s1 sc1 a Hsc1 Ha EL HV)
    as (s' & a' & E & Hi & Hrp & _ & _ & Hst & Hcu & Hdu & Ha' & Hsrc & Hcalls
        & _ & Hgen & _).
  exists s', a'. unfold step, handle, command. rewrite Hsc. cbn [bind].
  fold s1. rewrite E. cbn in *.
  repeat split; try assumption. rewrite Hi. exact Et.
Qed.

(** C8.  [togglePlay] on a paused element sets the status to [loading] and
    calls [play()]; when that promise is rejected the status goes back to
    [paused], and the component calls nothing more on the element. *)
Theorem togglePlay_rejected (s : State) (a : Audio) :
  rendered tracks s = true ->
  audioRef s = Some a ->
  el_paused a = true ->
  el_pending a = [] ->
  exists s1 a1,
    step tracks s (User TogglePlay) = Ok s1
    /\ status s1 = loading
    /\ audioRef s1 = Some a1
    /\ el_calls a1 = el_calls a ++ [Play]
    /\ el_pending a1 = [ByTogglePlay]
    /\ exists s2 a2,
         step tracks s1 (PlaySettled false) = Ok s2
         /\ status s2 = paused
         /\ audioRef s2 = Some a2
         /\ el_calls a2 = el_calls a1
         /\ el_pending a2 = []
         /\ snapshot tracks s2 = snapshot tracks (setStatus paused s)
         /\ forall b, step tracks s2 (PlaySettled b) = Ok s2.
Proof.
  intros Hr Ha Hp Hq.
  assert (Hsc : exists sc, scope_of tracks s = Some sc).
  { unfold rendered in Hr. destruct (scope_of tracks s) as [sc|];
      [exists sc; reflexivity|discriminate]. }
  destruct Hsc as [sc Hsc].
  set (a1 := audio_play ByTogglePlay a).
  set (s1 := with_audio a1 (setStatus loading s)).
  set (a2 := drop_pending a1).
  set (s2 := setStatus paused (with_audio a2 s1)).
  assert (E1 : step tracks s (User TogglePlay) = Ok s1).
  { unfold step, handle, command. rewrite Hsc. cbn [bind].
    unfold togglePlay. rewrite Ha, Hp. apply render_rendered. exact Hr. }
  assert (E2 : step tracks s1 (PlaySettled false) = Ok s2).
  { unfold step, handle. cbn [bind]. unfold settle, s1, a1. cbn.
    rewrite Hq. cbn. apply render_rendered. exact Hr. }
  exists s1, a1. split; [exact E1|]. split; [reflexivity|].
  split; [reflexivity|]. split; [reflexivity|].
  split; [unfold a1; cbn; rewrite Hq; reflexivity|].
  exists s2, a2. split; [exact E2|].
  repeat split; try reflexivity.
  - unfold a2, a1. cbn. rewrite Hq. reflexivity.
  - intro b. unfold step, handle. cbn [bind]. unfold settle, s2, a2, a1. cbn.
    rewrite Hq. cbn. apply render_rendered. exact Hr.
Qed.

(** C9, as the component has it.  When a track ends and repeat is on, the
    component seeks to 0 and calls [play()] on the same track, issues no
    load, and sets the status to [playing] at once.  When repeat is off it
    does what [next()] does; with the shuffle flag as it was when the track
    was loaded and shuffle off, the index moves to (i + 1) mod L, and a
    change of index loads the new track. *)
Theorem ended_repeats_or_advances
  (s : State) (a : Audio) (sc : Scope) (g : nat) (draws : list Q) :
  rendered tracks s = true ->
  audioRef s = Some a ->
  scope_of tracks s = Some sc ->
  listeners s = Some sc ->
  (isRepeat s = true ->
   exists s' a',
     step tracks s (Media g (Ended draws)) = Ok s'
     /\ status s' = playing
     /\ index s' = index s
     /\ track_at tracks (index s') = Some (sc_track sc)
     /\ audioRef s' = Some a'
     /\ el_calls a' = el_calls a ++ [SetCurrentTime zero; Play]
     /\ generation s' = generation s)
  /\ (isRepeat s = false ->
      step tracks s (Media g (Ended draws))
      = step tracks (with_audio (browser_update (Ended draws) a) s)
          (User (Next draws)))
  /\ (isRepeat s = false -> isShuffle s = false ->
      exists s',
        step tracks s (Media g (Ended draws)) = Ok s'
        /\ index s' = (index s + 1) mod length tracks
        /\ (index s' <> index s ->
            generation s' = S (generation s) /\ status s' = loading)).
Proof.
  intros Hr Ha Hsc Hl.
  pose proof (scope_of_index _ _ _ Hsc) as (Ei & Esh & Erp & Et & Hrange).
  destruct (rendered_deps s sc Hr Hsc) as [HV [u [Hd Hu]]].
  set (ab := browser_update (Ended draws) a).
  set (sb := with_audio ab s).
  assert (Hdisp : handle tracks s (Media g (Ended draws))
                  = onEnded tracks sc draws ab sb).
  { cbn [handle]. unfold dispatch. rewrite Ha. cbn [listeners with_audio].
    rewrite Hl. reflexivity. }
  assert (Hsame : isRepeat s = false ->
                  step tracks s (Media g (Ended draws))
                  = step tracks sb (User (Next draws))).
  { intro Hoff. unfold step. rewrite Hdisp. unfold onEnded.
    rewrite Erp, Hoff. cbn [handle]. unfold command.
    assert (Hscb : scope_of tracks sb = Some sc) by exact Hsc.
    rewrite Hscb. reflexivity. }
  split; [|split; [exact Hsame|]].
  - intro Hon. unfold step. rewrite Hdisp. unfold onEnded.
    rewrite Erp, Hon. cbn [bind].
    eexists. eexists. split; [apply render_rendered; exact Hr|].
    cbn. repeat split; try reflexivity.
    + exact Et.
    + cbn. rewrite <- app_assoc. reflexivity.
    + unfold generation. rewrite Ha. cbn.
      rewrite <- app_assoc. cbn [app].
      rewrite (loads_app a [SetCurrentTime zero; Play] 0 eq_refl). lia.
  - intros Hoff Hsh. rewrite (Hsame Hoff).
    assert (Hib : 0 <= index sb < length tracks) by exact Hrange.
    destruct (rem_succ_range tracks _ Hrange) as [Hrem Hj].
    set (j := (index s + 1) mod length tracks) in *.
    assert (Hstep : step tracks sb (User (Next draws))
                    = render tracks (setIndex j sb)).
    { unfold step, handle, command.
      assert (Hscb : scope_of tracks sb = Some sc) by exact Hsc.
      rewrite Hscb. unfold next. rewrite Esh, Hsh. cbn [bind].
      change (index sb) with (index s). rewrite Hrem. reflexivity. }
    rewrite Hstep.
    destruct (render_after_setIndex tracks sb j Hj) as [s' [E [Eidx _]]].
    exists s'. split; [exact E|]. split; [exact Eidx|].
    intro Hne. rewrite Eidx in Hne.
    destruct (scope_of_some tracks (setIndex j sb) Hj) as [tj [Hscj _]].
    assert (EL : same_loadDeps (loadDeps (setIndex j sb))
                   (index (setIndex j sb), audioUrl tj,
                    isRepeat (setIndex j sb)) = false).
    { cbn. rewrite Hd. cbn.
      assert (Eq : (index s =? j) = false) by (apply Z.eqb_neq; congruence).
      rewrite Eq. reflexivity. }
    destruct (reload_spec (setIndex j sb) _ ab Hscj eq_refl EL HV)
      as (s2 & a2 & E2 & _ & _ & _ & _ & Hst & _ & _ & _ & _ & _ & _ & Hgen
          & _).
    rewrite E in E2. injection E2 as <-.
    split; [|exact Hst]. rewrite Hgen. unfold generation. cbn.
    rewrite Ha. reflexivity.
Qed.

(** C1, as the component has it.  There is no generation counter and a
    media event carries no tag: the listeners in place handle an event
    whatever load it comes from, and [loadedmetadata] sets the duration to
    what the element reports at that moment (else the hint of the current
    track, else 0) and the status to [paused].  A change of track runs the
    load effect once: one more load, status [loading], duration and
    currentTime 0, and the listeners of the new render in place of the old
    ones. *)
Theorem media_events_untagged (s : State) (a : Audio) (sc : Scope) :
  rendered tracks s = true ->
  audioRef s = Some a ->
  listeners s = Some sc ->
  (forall g g' e, step tracks s (Media g e) = step tracks s (Media g' e))
  /\ (forall g d,
        exists s',
          step tracks s (Media g (LoadedMetadata d)) = Ok s'
          /\ duration s'
             = or_else d (or_else_opt (durationHint (sc_track sc)) zero)
          /\ status s' = paused
          /\ index s' = index s
          /\ generation s' = generation s)
  /\ (forall j, 0 <= j < length tracks -> j <> index s ->
        exists s' sc',
          render tracks (setIndex j s) = Ok s'
          /\ index s' = j
          /\ generation s' = S (generation s)
          /\ scope_of tracks s' = Some sc'
          /\ listeners s' = Some sc'
          /\ status s' = loading /\ duration s' = zero
          /\ current s' = zero).
Proof.
  intros Hr Ha Hl. split; [reflexivity|]. split.
  - intros g d. unfold step. cbn [handle]. unfold dispatch.
    rewrite Ha. cbn [listeners with_audio]. rewrite Hl. cbn [bind].
    eexists. split; [apply render_rendered; exact Hr|].
    cbn. repeat split; try reflexivity.
    unfold generation. cbn. rewrite Ha. reflexivity.
  - intros j Hj Hne.
    assert (Hsc0 : exists sc0, scope_of tracks s = Some sc0).
    { unfold rendered in Hr. destruct (scope_of tracks s) as [sc0|];
        [exists sc0; reflexivity|discriminate]. }
    destruct Hsc0 as [sc0 Hsc0].
    destruct (rendered_deps s sc0 Hr Hsc0) as [HV [u [Hd Hu]]].
    destruct (scope_of_some tracks (setIndex j s) Hj) as [tj [Hscj Htj]].
    assert (EL : same_loadDeps (loadDeps (setIndex j s))
                   (index (setIndex j s), audioUrl tj,
                    isRepeat (setIndex j s)) = false).
    { cbn. rewrite Hd. cbn.
      assert (Eq : (index s =? j) = false) by (apply Z.eqb_neq; congruence).
      rewrite Eq. reflexivity. }
    destruct (reload_spec (setIndex j s) _ a Hscj Ha EL HV)
      as (s' & a' & E & Hi & Hrp & Hsh & _ & Hst & Hcu & Hdu & _ & _ & _ & _
          & Hgen & Hli).
    exists s'. eexists. split; [exact E|]. cbn in *.
    repeat split; try eassumption.
    unfold scope_of. rewrite Hi, Hrp, Hsh. cbn in Htj. rewrite Htj.
    reflexivity.
Qed.

End Transport.

(** * The component on its own playlist *)

Lemma sample_states :
  after [] = Ok s_first
  /\ after [User (Next [])] = Ok s_second
  /\ after [Media 0 (LoadedMetadata (Fin 200))] = Ok s_ready
  /\ after [User ToggleShuffle] = Ok s_shuffle
  /\ after [User ToggleRepeat] = Ok s_repeat.
Proof. repeat split; vm_compute; reflexivity. Qed.

(** The scenario of C1: the first track is loaded at the first render, the
    second on [next()]; a [loadedmetadata] of the first load that arrives
    then is applied: the duration shown is its 100 seconds and the status
    leaves [loading] for [paused]. *)
Lemma stale_metadata_is_applied : ~ discards_stale_events playlist.
Proof.
  intro H.
  assert (E : snapshot playlist
                (state_after [User (Next []);
                              Media 0 (LoadedMetadata (Fin 100))])
              = snapshot playlist s_second).
  { apply (H [User (Next [])] _ 0%nat (LoadedMetadata (Fin 100)));
      vm_compute; reflexivity. }
  vm_compute in E. discriminate E.
Qed.

Lemma media_events_untagged_witness :
  rendered playlist s_second = true
  /\ generation s_second = 2%nat
  /\ duration s_second = zero
  /\ exists s',
       step playlist s_second (Media 0 (LoadedMetadata (Fin 100))) = Ok s'
       /\ duration s' = Fin 100 /\ status s' = paused.
Proof.
  split; [reflexivity|]. split; [reflexivity|]. split; [reflexivity|].
  destruct (media_events_untagged playlist s_second (the_audio s_second)
              (the_scope s_second) eq_refl eq_refl eq_refl) as [_ [H _]].
  destruct (H 0%nat (Fin 100)) as [s' [E [Hd [Hs _]]]].
  exists s'. split; [exact E|]. split; [exact Hd|exact Hs].
Defined.

(** The scenario of C9 with repeat on: at the end of the track the status
    is [playing] at once. *)
Lemma ended_repeat_goes_to_playing : ~ repeat_enters_loading playlist.
Proof.
  intro H.
  destruct (H [User ToggleRepeat] s_repeat 1%nat [])
    as [s' [E Hs]]; [vm_compute; reflexivity ..|].
  vm_compute in E. injection E as <-. discriminate Hs.
Qed.

Lemma ended_repeats_or_advances_witness :
  rendered playlist s_first = true
  /\ isRepeat s_first = false
  /\ exists s',
       step playlist s_first (Media 0 (Ended [])) = Ok s'
       /\ index s' = 1
       /\ option_map id (track_at playlist (index s')) = Some "t2"%string.
Proof.
  split; [reflexivity|]. split; [reflexivity|].
  destruct (ended_repeats_or_advances playlist
              s_first (the_audio s_first) (the_scope s_first)
              0%nat [] eq_refl eq_refl eq_refl eq_refl) as [_ [_ H]].
  destruct (H eq_refl eq_refl) as [s' [E [Hi _]]].
  exists s'. split; [exact E|]. split; [exact Hi|].
  rewrite Hi. reflexivity.
Defined.



Lemma sequential_navigation_witness :
  0 <= index s_first < length playlist
  /\ isShuffle s_first = false
  /\ exists s',
       run playlist s_first [User (Next []); User (Next [])] = Ok s'
       /\ index s' = index s_first.
Proof.
  split; [vm_compute; split; [discriminate|reflexivity]|]. split; [reflexivity|].
  destruct (sequential_navigation playlist s_first []
              ltac:(vm_compute; split; [discriminate|reflexivity]) eq_refl) as [_ [_ H]].
  apply (H [[]; []]). reflexivity.
Defined.

Lemma shuffle_navigation_witness :
  0 <= index s_shuffle < length playlist
  /\ isShuffle s_shuffle = true
  /\ exists s',
       step playlist s_shuffle (User (Next [1 # 4; 3 # 4]%Q)) = Ok s'
       /\ index s' = 1.
Proof.
  split; [vm_compute; split; [discriminate|reflexivity]|]. split; [reflexivity|].
  destruct (shuffle_navigation playlist s_shuffle [1 # 4; 3 # 4]%Q
              ltac:(vm_compute; split; [discriminate|reflexivity]) eq_refl)
    as [_ [_ [H _]]].
  destruct (H ltac:(reflexivity)) as [_ [Hfirst _]].
  destruct (Hfirst [1 # 4]%Q (3 # 4)%Q [] eq_refl) as [s' [E [Hi _]]].
  - repeat constructor.
  - vm_compute. discriminate.
  - vm_compute. split; [discriminate|reflexivity].
  - exists s'. split; [exact E|]. rewrite Hi. reflexivity.
Defined.

(** The scenario of C5 with a [p] that is not a number: the duration is
    known, 200 seconds, the element refuses the position and currentTime
    stays at 0 instead of taking [clamp(p, 0, 1) * duration]. *)
Lemma seek_refused_leaves_position : ~ seek_always_sets_position.
Proof.
  intro H.
  specialize (H s_ready (the_audio s_ready) NaN eq_refl eq_refl).
  vm_compute in H. discriminate H.
Qed.

Lemma seekTo_spec_witness :
  rendered playlist s_ready = true
  /\ duration s_ready = Fin 200
  /\ seekTo NaN s_ready = s_ready
  /\ exists x,
       current (seekTo (Fin (3 # 2)) s_ready) = Fin x
       /\ (0 <= x <= 200)%Q.
Proof.
  split; [reflexivity|]. split; [reflexivity|].
  split.
  - destruct (seekTo_spec playlist s_ready (the_audio s_ready)
                NaN eq_refl eq_refl) as [_ [_ [_ [H _]]]].
    apply H. reflexivity.
  - destruct (seekTo_spec playlist s_ready (the_audio s_ready)
                (Fin (3 # 2)) eq_refl eq_refl) as [_ [_ [_ [_ [_ H]]]]].
    destruct (H 200%Q) as [x [E [B _]]];
      [discriminate|reflexivity|reflexivity|].
    exists x. split; assumption.
Defined.

Lemma setVolume_clamps_witness :
  rendered playlist s_first = true
  /\ status s_first = loading
  /\ exists s' a',
       step playlist s_first (User (SetVolumeTo (Fin (17 # 10)))) = Ok s'
       /\ audioRef s' = Some a'
       /\ el_volume a' = one
       /\ status s' = loading.
Proof.
  split; [reflexivity|]. split; [reflexivity|].
  destruct (setVolume_clamps playlist s_first (the_audio s_first)
              (Fin (17 # 10)) eq_refl eq_refl eq_refl ltac:(discriminate))
    as (s' & a' & E & Ha & _ & Hs & _ & _ & _ & Hne & _).
  exists s', a'. split; [exact E|]. split; [exact Ha|].
  split; [|exact Hs]. apply Hne. reflexivity.
Defined.

Lemma togglePlay_rejected_witness :
  rendered playlist s_first = true
  /\ el_paused (the_audio s_first) = true
  /\ exists s1 s2,
       step playlist s_first (User TogglePlay) = Ok s1
       /\ status s1 = loading
       /\ step playlist s1 (PlaySettled false) = Ok s2
       /\ status s2 = paused.
Proof.
  split; [reflexivity|]. split; [reflexivity|].
  destruct (togglePlay_rejected playlist s_first (the_audio s_first)
              eq_refl eq_refl eq_refl eq_refl)
    as (s1 & a1 & E1 & H1 & _ & _ & _ & s2 & a2 & E2 & H2 & _).
  exists s1, s2. repeat split; assumption.
Defined.

Lemma toggleRepeat_reloads_witness :
  rendered playlist s_ready = true
  /\ status s_ready = paused
  /\ duration s_ready = Fin 200
  /\ exists s',
       step playlist s_ready (User ToggleRepeat) = Ok s'
       /\ status s' = loading /\ duration s' = zero
       /\ generation s' = 2%nat.
Proof.
  split; [reflexivity|]. split; [reflexivity|]. split; [reflexivity|].
  destruct (toggleRepeat_reloads playlist s_ready (the_audio s_ready)
              (the_scope s_ready) eq_refl eq_refl eq_refl)
    as (s' & a' & E & _ & _ & _ & Hs & _ & Hd & _ & _ & _ & Hg).
  exists s'. repeat split; assumption.
Defined.

(** The listeners keep the [next] of the render in which the load effect
    ran.  On three tracks: shuffle is switched on, [next()] lands on the
    third track, shuffle is switched off again; when the track ends, the
    index is drawn at random (here the second track) although the sequence
    would go to the first. *)
Lemma ended_uses_the_shuffle_flag_of_the_load :
  exists s s',
    (do s0 <- mount three_tracks;
     run three_tracks s0
       [User ToggleShuffle; User (Next [9 # 10]%Q); User ToggleShuffle])
    = Ok s
    /\ index s = 2 /\ isShuffle s = false /\ isRepeat s = false
    /\ step three_tracks s (Media 1 (Ended [1 # 2]%Q)) = Ok s'
    /\ index s' = 1
    /\ (index s + 1) mod length three_tracks = 0.
Proof.
  eexists. eexists. split; [vm_compute; reflexivity|].
  repeat split; vm_compute; reflexivity.
Qed.

(** A hint is used when the element reports no duration. *)
Lemma loadedmetadata_falls_back_on_the_hint :
  exists s s',
    (do s0 <- mount three_tracks; run three_tracks s0 [User (Next [])]) = Ok s
    /\ step three_tracks s (Media 1 (LoadedMetadata NaN)) = Ok s'
    /\ duration s' = Fin 30 /\ status s' = paused.
Proof.
  eexists. eexists. split; [vm_compute; reflexivity|].
  repeat split; vm_compute; reflexivity.
Qed.

(** * More of the module *)

(** ** More on [clamp] and [progress] *)

#[local] Arguments Qltb : simpl never.
#[local] Arguments Qle_bool : simpl never.
#[local] Arguments Qeq_bool : simpl never.

Ltac qbool :=
  repeat match goal with
    | H : Qltb _ _ = true |- _ => apply Qltb_lt in H
    | H : Qltb _ _ = false |- _ => apply Qltb_ge in H
    | H : Qle_bool _ _ = true |- _ => apply Qle_bool_iff in H
    | H : Qeq_bool _ _ = true |- _ => apply Qeq_bool_iff in H
    | |- Qle_bool _ _ = true => apply Qle_bool_iff
    | |- Qeq_bool _ _ = true => apply Qeq_bool_iff
    end.

Ltac split_Qltb :=
  repeat (match goal with
          | |- context [Qltb ?a ?b] => destruct (Qltb a b) eqn:?
          end; cbn).

(** X1.  For bounds in order and a number [n], [clamp(n, min, max)] lies
    between the bounds and is [n] itself when [n] already does; with the
    bounds out of order it is [min]. *)
Theorem clamp_range (n lo hi : number) :
  n <> NaN ->
  (le lo hi = true ->
   le lo (clamp n lo hi) = true
   /\ le (clamp n lo hi) hi = true
   /\ (le lo n = true -> le n hi = true ->
       same_value (clamp n lo hi) n = true))
  /\ (lt hi lo = true -> clamp n lo hi = lo).
Proof.
  intro Hn. split.
  - intro Hle.
    destruct n as [| | |x]; [congruence| | |];
      destruct lo as [| | |l], hi as [| | |h]; cbn in Hle; try discriminate;
      unfold clamp, Math_max, Math_min; cbn; split_Qltb;
      repeat split; try reflexivity; try discriminate;
      try (intros H1 H2; cbn in H1, H2); try discriminate;
      qbool; try lra.
  - intro Hlt.
    destruct n as [| | |x]; [congruence| | |];
      destruct lo as [| | |l], hi as [| | |h]; cbn in Hlt; try discriminate;
      unfold clamp, Math_max, Math_min; cbn; split_Qltb;
      try reflexivity; exfalso; qbool; lra.
Qed.

Lemma clamp_range_witness :
  le (Fin 10) (Fin 20) = true
  /\ clamp (Fin 25) (Fin 10) (Fin 20) = Fin 20
  /\ le (clamp (Fin 25) (Fin 10) (Fin 20)) (Fin 20) = true.
Proof.
  split; [reflexivity|]. split; [reflexivity|].
  destruct (clamp_range (Fin 25) (Fin 10) (Fin 20) ltac:(discriminate))
    as [H _].
  apply (H eq_refl).
Defined.

(** X2.  [clamp] gives [NaN] exactly when one of its three arguments is
    [NaN], and clamping a clamped value changes nothing. *)
Theorem clamp_idempotent (n lo hi : number) :
  is_nan (clamp n lo hi) = is_nan n || is_nan lo || is_nan hi
  /\ clamp (clamp n lo hi) lo hi = clamp n lo hi.
Proof.
  split.
  - destruct n as [| | |x], lo as [| | |l], hi as [| | |h];
      unfold clamp, Math_max, Math_min; cbn; split_Qltb; reflexivity.
  - destruct n as [| | |x], lo as [| | |l], hi as [| | |h];
      unfold clamp, Math_max, Math_min; cbn; split_Qltb;
      try reflexivity; exfalso; qbool; lra.
Qed.

Lemma clamp_inside (x : Q) :
  (0 <= x <= 1)%Q -> same_value (clamp (Fin x) zero one) (Fin x) = true.
Proof.
  intros [H0 H1]. unfold clamp, Math_max, Math_min, zero, one. cbn.
  split_Qltb; qbool; lra.
Qed.

Lemma div_by_known (c : Q) (d : number) :
  truthy d = true -> div (Fin c) d <> NaN.
Proof.
  destruct d as [| | |y]; cbn; try discriminate.
  intro H. apply negb_true_iff in H. rewrite H. discriminate.
Qed.

(** X3.  [progress] is 0 while the duration is unknown, and for a finite
    position it always lies in [[0, 1]]. *)
Theorem progress_unit (s : State) :
  (truthy (duration s) = false -> progress s = zero)
  /\ (isFinite (current s) = true ->
      le zero (progress s) = true /\ le (progress s) one = true).
Proof.
  unfold progress. split.
  - intros ->. reflexivity.
  - intro Hc. destruct (truthy (duration s)) eqn:Ht; cbn [negb].
    + destruct (current s) as [| | |c]; try discriminate.
      destruct (clamp_unit _ (div_by_known c _ Ht)) as [x [E [H0 H1]]].
      rewrite E. unfold zero, one. rewrite !le_Fin. split; assumption.
    + split; reflexivity.
Qed.

Lemma seekTo_known (s : State) (a : Audio) (p : number) (d x : Q) :
  audioRef s = Some a ->
  duration s = Fin d ->
  (0 < d)%Q ->
  clamp p zero one = Fin x ->
  seekTo p s
  = setCurrent (Fin (x * d)) (with_audio (audio_seeked (Fin (x * d)) a) s).
Proof.
  intros Ha Hd Hpos Ex.
  assert (Ht : truthy (duration s) = true).
  { rewrite Hd. cbn. apply negb_true_iff.
    destruct (Qeq_bool d 0) eqn:E; [|reflexivity]. qbool. lra. }
  unfold seekTo. rewrite Ha, Ht. cbn [negb]. rewrite Ex, Hd. reflexivity.
Qed.

(** X4.  Seeking and the progress bar agree at both ends: with a known
    finite duration, [seekTo(p)] with [p] at or below 0 empties the
    progress bar and with [p] at or above 1 fills it. *)
Theorem seekTo_progress (s : State) (a : Audio) (p : number) (d : Q) :
  audioRef s = Some a ->
  duration s = Fin d ->
  (0 < d)%Q ->
  (le p zero = true -> progress (seekTo p s) = zero)
  /\ (le one p = true -> progress (seekTo p s) = one).
Proof.
  intros Ha Hd Hpos.
  assert (Hz : Qeq_bool d 0 = false).
  { destruct (Qeq_bool d 0) eqn:E; [|reflexivity]. qbool. lra. }
  assert (Ht : truthy (Fin d) = true) by (cbn; rewrite Hz; reflexivity).
  split; intro Hp.
  - assert (Ex : clamp p zero one = Fin 0).
    { destruct p as [| | |x]; cbn in Hp; try discriminate; [reflexivity|].
      unfold clamp, Math_max, Math_min, zero, one. cbn.
      split_Qltb; try reflexivity; exfalso; qbool; lra. }
    rewrite (seekTo_known s a p d 0 Ha Hd Hpos Ex).
    unfold progress. cbn [duration current setCurrent with_audio].
    rewrite Hd, Ht. cbn [negb div]. rewrite Hz.
    unfold clamp, Math_max, Math_min, zero, one. cbn.
    assert (E : (0 * d / d == 0)%Q) by (field; lra).
    split_Qltb; try reflexivity; exfalso; qbool; lra.
  - assert (Ex : clamp p zero one = Fin 1).
    { destruct p as [| | |x]; cbn in Hp; try discriminate; [reflexivity|].
      unfold clamp, Math_max, Math_min, zero, one. cbn.
      split_Qltb; try reflexivity; exfalso; qbool; lra. }
    rewrite (seekTo_known s a p d 1 Ha Hd Hpos Ex).
    unfold progress. cbn [duration current setCurrent with_audio].
    rewrite Hd, Ht. cbn [negb div]. rewrite Hz.
    unfold clamp, Math_max, Math_min, zero, one. cbn.
    assert (E : (1 * d / d == 1)%Q) by (field; lra).
    split_Qltb; try reflexivity; exfalso; qbool; lra.
Qed.

Lemma seekTo_progress_witness :
  duration s_ready = Fin 200
  /\ progress (seekTo (Fin 2) s_ready) = one
  /\ progress (seekTo (Fin (-1)) s_ready) = zero.
Proof.
  split; [reflexivity|].
  destruct (seekTo_progress s_ready (the_audio s_ready) (Fin 2) 200
              eq_refl eq_refl eq_refl) as [_ H1].
  destruct (seekTo_progress s_ready (the_audio s_ready) (Fin (-1)) 200
              eq_refl eq_refl eq_refl) as [H0 _].
  split; [apply H1|apply H0]; reflexivity.
Defined.

(** X5.  A click on the seek bar of positive width, with a known finite
    duration, sets the position to the fraction of the duration at which
    the click fell; a click left of the bar gives 0 and a click right of it
    gives the duration. *)
Theorem seekClick_position (s : State) (a : Audio) (x l w d : Q) :
  audioRef s = Some a ->
  duration s = Fin d ->
  (0 < d)%Q ->
  (0 < w)%Q ->
  exists c,
    current (seekClick (Fin x) (Fin l) (Fin w) s) = Fin c
    /\ (0 <= c <= d)%Q
    /\ (l <= x <= l + w -> c == (x - l) / w * d)%Q
    /\ (x <= l -> c == 0)%Q
    /\ (l + w <= x -> c == d)%Q.
Proof.
  intros Ha Hd Hpos Hw.
  assert (Ht : truthy (duration s) = true).
  { rewrite Hd. cbn. apply negb_true_iff.
    destruct (Qeq_bool d 0) eqn:E; [|reflexivity]. qbool. lra. }
  assert (Hz : Qeq_bool w 0 = false).
  { destruct (Qeq_bool w 0) eqn:E; [|reflexivity]. qbool. lra. }
  unfold seekClick, seekTo. cbn [minus div]. rewrite Hz, Ha, Ht.
  cbn [negb current setCurrent]. rewrite Hd.
  set (q := ((x - l) / w)%Q).
  assert (Hq : (q * w == x - l)%Q) by (unfold q; field; lra).
  assert (Hq0 : (q <= 0 <-> x <= l)%Q).
  { split; intro H.
    - assert (q * w <= 0 * w)%Q by (apply Qmult_le_compat_r; lra). lra.
    - unfold q. apply Qle_shift_div_r; lra. }
  assert (Hq1 : (1 <= q <-> l + w <= x)%Q).
  { split; intro H.
    - assert (1 * w <= q * w)%Q by (apply Qmult_le_compat_r; lra). lra.
    - unfold q. apply Qle_shift_div_l; lra. }
  unfold clamp, Math_max, Math_min, zero, one. cbn.
  destruct (Qltb q 1) eqn:E1; cbn.
  - destruct (Qltb 0 q) eqn:E0; cbn; qbool.
    + exists (q * d)%Q. split; [reflexivity|].
      split; [split; [apply Qmult_le_0_compat; lra|]|].
      * rewrite <- (Qmult_1_l d) at 2. apply Qmult_le_compat_r; lra.
      * split; [intros _; reflexivity|]. split; intro H.
        -- apply Hq0 in H. lra.
        -- apply Hq1 in H. lra.
    + exists (0 * d)%Q. split; [reflexivity|]. split; [lra|].
      apply Hq0 in E0.
      split; [intros [H1 H2]|split; intro H]; try lra.
      * assert (G : (0 <= q)%Q) by (unfold q; apply Qle_shift_div_l; lra).
        assert (E : (q == 0)%Q) by lra.
        rewrite E. reflexivity.
  - qbool. exists (1 * d)%Q. split; [reflexivity|]. split; [lra|].
    apply Hq1 in E1.
    split; [intros [H1 H2]|split; intro H]; try lra.
    + assert (G : (q <= 1)%Q) by (unfold q; apply Qle_shift_div_r; lra).
      assert (E : (q == 1)%Q) by lra.
      rewrite E. reflexivity.
Qed.

Lemma seekClick_position_witness :
  duration s_ready = Fin 200
  /\ exists c,
       current (seekClick (Fin 150) (Fin 100) (Fin 400) s_ready) = Fin c
       /\ (c == 25)%Q.
Proof.
  split; [reflexivity|].
  destruct (seekClick_position s_ready (the_audio s_ready) 150 100 400 200
              eq_refl eq_refl eq_refl eq_refl) as [c [E [_ [H _]]]].
  exists c. split; [exact E|].
  rewrite H; [reflexivity|]. split; discriminate.
Defined.

(** ** More on [formatTime] *)

(** X6.  [formatTime] drops the fraction of a second, and it prints
    [60 * m + s] seconds, with [s] below 60 and the whole below [2^53], as
    the decimal digits of [m], a colon and [s] on two digits. *)
Theorem formatTime_minutes_seconds (sd : Q -> string) :
  (forall q, (0 <= q)%Q ->
     formatTime sd (Fin q) = formatTime sd (Fin (inject_Z (Qfloor q))))
  /\ (forall m s, 0 <= m -> 0 <= s < 60 -> 60 * m + s < 2 ^ 53 ->
        formatTime sd (Fin (inject_Z (60 * m + s)))
        = (decimal m ++ ":" ++ two_digits s)%string).
Proof.
  split.
  - intros q Hq.
    assert (H0 : 0 <= Qfloor q).
    { rewrite <- (Qfloor_Z 0). apply Qfloor_resp_le. exact Hq. }
    rewrite (formatTime_finite sd q Hq).
    rewrite (formatTime_finite sd (inject_Z (Qfloor q))).
    + rewrite Qfloor_Z. reflexivity.
    + change 0%Q with (inject_Z 0). rewrite <- Zle_Qle. exact H0.
  - intros m s Hm Hs Hbig.
    rewrite formatTime_finite.
    + rewrite Qfloor_Z.
      replace ((60 * m + s) / 60) with m
        by (apply (Z.div_unique _ 60 m s); lia).
      replace ((60 * m + s) mod 60) with s
        by (apply (Z.mod_unique _ 60 m s); lia).
      rewrite toString_small by lia. reflexivity.
    + change 0%Q with (inject_Z 0). rewrite <- Zle_Qle. lia.
Qed.

Lemma formatTime_minutes_seconds_witness :
  formatTime (fun _ => EmptyString) (Fin (inject_Z (60 * 12 + 7)))
  = "12:07"%string.
Proof.
  destruct (formatTime_minutes_seconds (fun _ => EmptyString)) as [_ H].
  rewrite (H 12 7); [reflexivity|discriminate| |reflexivity].
  split; [discriminate|reflexivity].
Defined.

(** ** What handlers and renders leave alone *)

Ltac loads_tac :=
  unfold loads; cbn; rewrite ?filter_app, ?length_app; cbn; lia.

Lemma with_audio_same (s : State) (a : Audio) :
  audioRef s = Some a -> with_audio a s = s.
Proof. destruct s; cbn. intros ->. reflexivity. Qed.

Lemma setIndex_same (s : State) : setIndex (index s) s = s.
Proof. destruct s; reflexivity. Qed.

Section Frames.

Variable tracks : list Track.

Lemma rendered_scope (s : State) :
  rendered tracks s = true -> exists sc, scope_of tracks s = Some sc.
Proof.
  unfold rendered. destruct (scope_of tracks s) as [sc|];
    [exists sc; reflexivity|discriminate].
Qed.

Lemma next_prev_shape (sc : Scope) (draws : list Q) (s s1 : State) :
  next tracks sc draws s = Ok s1 \/ prev tracks sc draws s = Ok s1 ->
  exists j, s1 = setIndex j s.
Proof.
  unfold next, prev. intros [H|H];
    destruct (sc_isShuffle sc);
    try destruct (pickRandomNext tracks sc draws) as [j| |];
    cbn in H; try discriminate; injection H as <-; eexists; reflexivity.
Qed.

(** No handler touches the dependency lists, the listeners, the source or
    the gain of the element, and none calls [load()]; only the volume
    slider changes the volume and only [loadedmetadata] the duration. *)
Lemma handle_frame (s s1 : State) (a : Audio) (i : Input) :
  audioRef s = Some a ->
  handle tracks s i = Ok s1 ->
  loadDeps s1 = loadDeps s
  /\ volumeDeps s1 = volumeDeps s
  /\ listeners s1 = listeners s
  /\ (volume s1 = volume s
      \/ exists v, i = User (SetVolumeTo v) /\ volume s1 = v)
  /\ (duration s1 = duration s
      \/ exists g d sc,
           i = Media g (LoadedMetadata d) /\ listeners s = Some sc
           /\ duration s1
              = or_else d (or_else_opt (durationHint (sc_track sc)) zero))
  /\ exists a1, audioRef s1 = Some a1
                /\ el_src a1 = el_src a
                /\ el_volume a1 = el_volume a
                /\ loads a1 = loads a.
Proof.
  intros Ha H.
  assert (Done : forall a1 s2,
             loadDeps s2 = loadDeps s -> volumeDeps s2 = volumeDeps s ->
             listeners s2 = listeners s -> volume s2 = volume s ->
             duration s2 = duration s ->
             audioRef s2 = Some a1 -> el_src a1 = el_src a ->
             el_volume a1 = el_volume a -> loads a1 = loads a ->
             loadDeps s2 = loadDeps s
             /\ volumeDeps s2 = volumeDeps s
             /\ listeners s2 = listeners s
             /\ (volume s2 = volume s
                 \/ exists v, i = User (SetVolumeTo v) /\ volume s2 = v)
             /\ (duration s2 = duration s
                 \/ exists g d sc,
                      i = Media g (LoadedMetadata d)
                      /\ listeners s = Some sc
                      /\ duration s2
                         = or_else d
                             (or_else_opt (durationHint (sc_track sc)) zero))
             /\ exists a2, audioRef s2 = Some a2
                           /\ el_src a2 = el_src a
                           /\ el_volume a2 = el_volume a
                           /\ loads a2 = loads a).
  { intros a1 s2 E1 E2 E3 E4 E4' E5 E6 E7 E8.
    repeat split; auto. exists a1. auto. }
  destruct i as [c | g e | ok]; cbn [handle] in H.
  - unfold command in H. destruct (scope_of tracks s) as [sc|]; [|discriminate].
    destruct c as [ | draws | draws | | | p | v].
    + injection H as <-. unfold togglePlay. rewrite Ha.
      destruct (el_paused a); eapply Done; try reflexivity; loads_tac.
    + destruct (next_prev_shape sc draws s s1 (or_introl H)) as [j ->].
      eapply Done; try reflexivity; eassumption.
    + destruct (next_prev_shape sc draws s s1 (or_intror H)) as [j ->].
      eapply Done; try reflexivity; eassumption.
    + injection H as <-. eapply Done; try reflexivity; eassumption.
    + injection H as <-. eapply Done; try reflexivity; eassumption.
    + injection H as <-. unfold seekTo. rewrite Ha.
      destruct (negb (truthy (duration s)));
        [eapply Done; try reflexivity; eassumption|].
      cbv zeta.
      destruct (audio_set_currentTime _ a) as [a'|] eqn:E;
        [|eapply Done; try reflexivity; eassumption].
      apply audio_set_currentTime_some in E as [_ ->].
      eapply Done; try reflexivity; loads_tac.
    + injection H as <-. repeat split; try reflexivity.
      * right. exists v. split; reflexivity.
      * left. reflexivity.
      * exists a. auto.
  - unfold dispatch in H. rewrite Ha in H. cbn [listeners with_audio] in H.
    assert (Hb : el_src (browser_update e a) = el_src a
                 /\ el_volume (browser_update e a) = el_volume a
                 /\ loads (browser_update e a) = loads a)
      by (destruct e; repeat split; reflexivity).
    destruct Hb as (Hb1 & Hb2 & Hb3).
    destruct (listeners s) as [sc|] eqn:Hl.
    2:{ injection H as <-. eapply Done; try reflexivity; eassumption. }
    destruct e as [d | tm | draws | | | ].
    + injection H as <-. repeat split; try reflexivity; try exact Hl.
      * left. reflexivity.
      * right. exists g, d, sc. repeat split.
      * eexists. split; [reflexivity|]. auto.
    + injection H as <-. unfold onTime.
      eapply Done; try reflexivity; eassumption.
    + unfold onEnded in H. destruct (sc_isRepeat sc).
      * injection H as <-.
        eapply Done; try reflexivity; try exact Hl; loads_tac.
      * destruct (next_prev_shape sc draws _ s1 (or_introl H)) as [j ->].
        eapply Done; try reflexivity; eassumption.
    + injection H as <-. unfold onWaiting. destruct (negb _);
        eapply Done; try reflexivity; eassumption.
    + injection H as <-. eapply Done; try reflexivity; eassumption.
    + injection H as <-. eapply Done; try reflexivity; eassumption.
  - injection H as <-. unfold settle. rewrite Ha.
    destruct (el_pending a) as [|who rest];
      [eapply Done; try reflexivity; eassumption|].
    destruct who, ok; eapply Done; reflexivity.
Qed.

(** What a render does to a state whose element exists: the load effect
    runs exactly when its dependency list changed, and then resets the
    transport, loads the track of the render and installs its listeners;
    otherwise all of that is left as it was. *)
Lemma render_cases (s1 s' : State) (a1 : Audio) :
  audioRef s1 = Some a1 ->
  render tracks s1 = Ok s' ->
  exists sc1 a',
    scope_of tracks s1 = Some sc1
    /\ audioRef s' = Some a'
    /\ index s' = index s1 /\ isRepeat s' = isRepeat s1
    /\ isShuffle s' = isShuffle s1 /\ volume s' = volume s1
    /\ if same_loadDeps (loadDeps s1)
            (index s1, audioUrl (sc_track sc1), isRepeat s1)
       then loads a' = loads a1
            /\ listeners s' = listeners s1
            /\ el_src a' = el_src a1
            /\ status s' = status s1
            /\ current s' = current s1
            /\ duration s' = duration s1
       else loads a' = S (loads a1)
            /\ listeners s' = Some sc1
            /\ el_src a' = audioUrl (sc_track sc1)
            /\ status s' = loading
            /\ current s' = zero
            /\ duration s' = zero.
Proof.
  intros Ha H. unfold render in H.
  destruct (scope_of tracks s1) as [sc1|] eqn:Hsc; [|discriminate].
  cbv zeta in H. exists sc1.
  unfold loadEffect, volumeEffect in H.
  destruct s1 as [i st sh rp cu du vo ar li ld vd]; cbn in *. subst ar.
  destruct (same_loadDeps ld _) eqn:EL; cbn in H;
    destruct (same_volumeDeps vd vo) eqn:EV; cbn in H;
    injection H as <-; cbn; eexists;
    (split; [reflexivity|]); (split; [reflexivity|]);
    repeat split; try reflexivity; loads_tac.
Qed.

Lemma rendered_same_deps (s : State) (sc : Scope) (i : Z) (t : Track) (r : bool) :
  rendered tracks s = true ->
  scope_of tracks s = Some sc ->
  track_at tracks i = Some t ->
  same_loadDeps (loadDeps s) (i, audioUrl t, r)
  = (index s =? i) && Bool.eqb (isRepeat s) r.
Proof.
  intros Hr Hsc Ht.
  destruct (rendered_deps tracks s sc Hr Hsc) as [_ [u [Hd Hu]]].
  pose proof (scope_of_index _ _ _ Hsc) as (_ & _ & _ & Et & _).
  rewrite Hd. cbn.
  destruct (index s =? i) eqn:E; [|reflexivity].
  apply Z.eqb_eq in E. subst i. rewrite Et in Ht. injection Ht as <-.
  rewrite Hu. reflexivity.
Qed.

(** A turn of the event loop started in a rendered state either keeps
    the index and the repeat flag, and then leaves the loads, the listeners
    and the source of the element alone, or changes one of them, and then
    runs the load effect once. *)
Lemma step_reload_cases (s s' : State) (a : Audio) (i : Input) :
  rendered tracks s = true ->
  audioRef s = Some a ->
  step tracks s i = Ok s' ->
  exists a',
    audioRef s' = Some a'
    /\ if (index s =? index s') && Bool.eqb (isRepeat s) (isRepeat s')
       then loads a' = loads a
            /\ listeners s' = listeners s
            /\ el_src a' = el_src a
       else loads a' = S (loads a)
            /\ listeners s' = scope_of tracks s'
            /\ status s' = loading
            /\ current s' = zero
            /\ duration s' = zero
            /\ exists t, track_at tracks (index s') = Some t
                         /\ el_src a' = audioUrl t.
Proof.
  intros Hr Ha H. unfold step in H.
  destruct (handle tracks s i) as [s1| |] eqn:Hh; cbn [bind] in H;
    try discriminate.
  destruct (handle_frame s s1 a i Ha Hh)
    as (Hld & _ & Hli & _ & _ & a1 & Ha1 & Hsrc & _ & Hloads).
  destruct (render_cases s1 s' a1 Ha1 H)
    as (sc1 & a' & Hsc1 & Ha' & Hi & Hrp & Hsh & _ & Hcase).
  destruct (rendered_scope s Hr) as [sc Hsc].
  pose proof (scope_of_index _ _ _ Hsc1) as (E1 & E2 & E3 & Et1 & _).
  assert (Hsame : same_loadDeps (loadDeps s1)
                    (index s1, audioUrl (sc_track sc1), isRepeat s1)
                  = (index s =? index s1)
                    && Bool.eqb (isRepeat s) (isRepeat s1)).
  { rewrite Hld. apply (rendered_same_deps s sc _ _ _ Hr Hsc Et1). }
  rewrite Hsame in Hcase. rewrite Hi, Hrp.
  exists a'. split; [exact Ha'|].
  destruct ((index s =? index s1) && Bool.eqb (isRepeat s) (isRepeat s1)).
  - destruct Hcase as (H1 & H2 & H3 & _). repeat split; congruence.
  - destruct Hcase as (H1 & H2 & H3 & H4 & H5 & H6).
    split; [congruence|]. split.
    { rewrite H2. unfold scope_of. rewrite Hi, Hsh, Hrp, Et1.
      destruct sc1; cbn in *; subst; reflexivity. }
    split; [exact H4|]. split; [exact H5|]. split; [exact H6|].
    exists (sc_track sc1). split; [exact Et1|exact H3].
Qed.

(** X7.  The component calls [load()] exactly when a turn of the event
    loop changed the index or the repeat flag, and then once: no other
    command and no media event reloads the track. *)
Theorem loads_follow_index_and_repeat
  (s s' : State) (a : Audio) (i : Input) :
  rendered tracks s = true ->
  audioRef s = Some a ->
  step tracks s i = Ok s' ->
  generation s'
  = if (index s =? index s') && Bool.eqb (isRepeat s) (isRepeat s')
    then generation s else S (generation s).
Proof.
  intros Hr Ha H.
  destruct (step_reload_cases s s' a i Hr Ha H) as [a' [Ha' Hcase]].
  unfold generation. rewrite Ha, Ha'.
  destruct ((index s =? index s') && Bool.eqb (isRepeat s) (isRepeat s'));
    destruct Hcase as [Hl _]; exact Hl.
Qed.

(** X8.  Whenever a turn of the event loop changes the index or the repeat
    flag, the display starts over: status [loading], position label 0:00,
    an empty progress bar, and 3:45 as duration label, the placeholder
    shown while the duration is unknown. *)
Theorem display_after_reload
  (sd : Q -> string) (s s' : State) (a : Audio) (i : Input) :
  rendered tracks s = true ->
  audioRef s = Some a ->
  step tracks s i = Ok s' ->
  index s' <> index s \/ isRepeat s' <> isRepeat s ->
  status s' = loading
  /\ currentLabel sd s' = "0:00"%string
  /\ durationLabel sd s' = "3:45"%string
  /\ progress s' = zero.
Proof.
  intros Hr Ha H Hch.
  destruct (step_reload_cases s s' a i Hr Ha H) as [a' [_ Hcase]].
  assert (E : (index s =? index s') && Bool.eqb (isRepeat s) (isRepeat s')
              = false).
  { destruct Hch as [Hne|Hne].
    - assert (Ei : (index s =? index s') = false)
        by (apply Z.eqb_neq; congruence).
      rewrite Ei. reflexivity.
    - apply andb_false_iff. right. apply eqb_false_iff. congruence. }
  rewrite E in Hcase. destruct Hcase as (_ & _ & Hst & Hcu & Hdu & _).
  unfold currentLabel, durationLabel, progress. rewrite Hst, Hcu, Hdu.
  repeat split; reflexivity.
Qed.

End Frames.

Lemma loads_follow_index_and_repeat_witness :
  rendered playlist s_ready = true
  /\ (forall s', step playlist s_ready (User (SeekTo (Fin (1 # 2)))) = Ok s' ->
        generation s' = generation s_ready)
  /\ (forall s', step playlist s_ready (User (Next [])) = Ok s' ->
        generation s' = S (generation s_ready)).
Proof.
  split; [reflexivity|]. split; intros s' H.
  - rewrite (loads_follow_index_and_repeat playlist s_ready s'
               (the_audio s_ready) _ eq_refl eq_refl H).
    vm_compute in H. injection H as <-. reflexivity.
  - rewrite (loads_follow_index_and_repeat playlist s_ready s'
               (the_audio s_ready) _ eq_refl eq_refl H).
    vm_compute in H. injection H as <-. reflexivity.
Defined.

(** ** Modes and navigation, composed *)

Lemma mod_succ_pred (i l : Z) :
  0 <= i < l ->
  ((i + 1) mod l - 1 + l) mod l = i
  /\ ((i - 1 + l) mod l + 1) mod l = i.
Proof.
  intro H. split.
  - destruct (Z.eq_dec (i + 1) l) as [E|E].
    + rewrite E, Z_mod_same_full. replace (0 - 1 + l) with i by lia.
      apply Z.mod_small. lia.
    + rewrite (Z.mod_small (i + 1)) by lia.
      replace (i + 1 - 1 + l) with (i + 1 * l) by lia.
      rewrite Z.mod_add by lia. apply Z.mod_small. lia.
  - destruct (Z.eq_dec i 0) as [E|E].
    + subst i. rewrite (Z.mod_small (0 - 1 + l)) by lia.
      replace (0 - 1 + l + 1) with l by lia. apply Z_mod_same_full.
    + replace (i - 1 + l) with (i - 1 + 1 * l) by lia.
      rewrite Z.mod_add by lia. rewrite (Z.mod_small (i - 1)) by lia.
      replace (i - 1 + 1) with i by lia. apply Z.mod_small. lia.
Qed.

Section Modes.

Variable tracks : list Track.

Lemma rendered_setIsShuffle (s : State) (b : bool) :
  rendered tracks (setIsShuffle b s) = rendered tracks s.
Proof.
  unfold rendered, scope_of. cbn.
  destruct (track_at tracks (index s)); reflexivity.
Qed.

(** X9.  Toggling shuffle only flips the flag: the index, the transport,
    the element and the listeners in place stay as they are, and toggling
    twice gives the very same state back. *)
Theorem toggleShuffle_silent (s : State) :
  rendered tracks s = true ->
  (exists s',
     step tracks s (User ToggleShuffle) = Ok s'
     /\ isShuffle s' = negb (isShuffle s)
     /\ index s' = index s /\ status s' = status s
     /\ current s' = current s /\ duration s' = duration s
     /\ audioRef s' = audioRef s /\ listeners s' = listeners s)
  /\ run tracks s [User ToggleShuffle; User ToggleShuffle] = Ok s.
Proof.
  intro Hr. destruct (rendered_scope tracks s Hr) as [sc Hsc].
  assert (E : forall b, step tracks (setIsShuffle b s) (User ToggleShuffle)
                        = Ok (setIsShuffle (negb b) s)).
  { intro b. unfold step, handle, command.
    assert (Hsc' : exists sc', scope_of tracks (setIsShuffle b s) = Some sc').
    { apply rendered_scope. rewrite rendered_setIsShuffle. exact Hr. }
    destruct Hsc' as [sc' ->]. cbn [bind]. apply render_rendered.
    rewrite rendered_setIsShuffle. exact Hr. }
  assert (Eid : setIsShuffle (isShuffle s) s = s) by (destruct s; reflexivity).
  split.
  - exists (setIsShuffle (negb (isShuffle s)) s).
    split; [|repeat split; reflexivity].
    rewrite <- Eid at 1. apply E.
  - cbn [run]. rewrite <- Eid at 1. rewrite E. cbn [bind].
    rewrite E. cbn [bind]. rewrite negb_involutive, Eid. reflexivity.
Qed.

Lemma step_toggleRepeat (s : State) (a : Audio) (sc : Scope) :
  rendered tracks s = true ->
  audioRef s = Some a ->
  scope_of tracks s = Some sc ->
  exists s' a',
    step tracks s (User ToggleRepeat) = Ok s'
    /\ rendered tracks s' = true
    /\ audioRef s' = Some a'
    /\ scope_of tracks s'
       = Some {| sc_index := index s; sc_track := sc_track sc;
                 sc_isShuffle := isShuffle s;
                 sc_isRepeat := negb (isRepeat s) |}
    /\ isRepeat s' = negb (isRepeat s)
    /\ index s' = index s /\ isShuffle s' = isShuffle s
    /\ status s' = loading /\ current s' = zero /\ duration s' = zero
    /\ el_calls a' = el_calls a ++ [SetSrc (audioUrl (sc_track sc)); Load]
    /\ generation s' = S (generation s).
Proof.
  intros Hr Ha Hsc.
  destruct (rendered_deps tracks s sc Hr Hsc) as [HV [u [Hd Hu]]].
  pose proof (scope_of_index _ _ _ Hsc) as (Ei & Esh & Erp & Et & _).
  set (s1 := setIsRepeat (negb (isRepeat s)) s).
  set (sc1 := {| sc_index := index s; sc_track := sc_track sc;
                 sc_isShuffle := isShuffle s;
                 sc_isRepeat := negb (isRepeat s) |}).
  assert (Hsc1 : scope_of tracks s1 = Some sc1).
  { unfold scope_of, s1. cbn. rewrite Et. reflexivity. }
  assert (EL : same_loadDeps (loadDeps s1)
                 (index s1, audioUrl (sc_track sc1), isRepeat s1) = false).
  { unfold s1, sc1. cbn. rewrite Hd. cbn.
    destruct (isRepeat s); cbn; rewrite andb_false_r; reflexivity. }
  destruct (reload_spec tracks s1 sc1 a Hsc1 Ha EL HV)
    as (s' & a' & E & Hi & Hrp & Hsh & _ & Hst & Hcu & Hdu & Ha' & _ & Hcalls
        & _ & Hgen & _).
  exists s', a'. unfold step, handle, command. rewrite Hsc. cbn [bind].
  fold s1. rewrite E. cbn in Hi, Hrp, Hsh, Hgen.
  split; [reflexivity|]. split; [apply (render_rendered_post _ _ _ E)|].
  split; [exact Ha'|].
  split; [unfold scope_of; rewrite Hi, Hrp, Hsh, Et; reflexivity|].
  repeat split; assumption.
Qed.

(** X10.  Toggling repeat twice brings the flag back but not the state: the
    track has been loaded two more times, and the status is [loading] with
    position and duration back at 0. *)
Theorem toggleRepeat_twice (s : State) (a : Audio) (sc : Scope) :
  rendered tracks s = true ->
  audioRef s = Some a ->
  scope_of tracks s = Some sc ->
  exists s2 a2,
    run tracks s [User ToggleRepeat; User ToggleRepeat] = Ok s2
    /\ isRepeat s2 = isRepeat s /\ index s2 = index s
    /\ status s2 = loading /\ current s2 = zero /\ duration s2 = zero
    /\ audioRef s2 = Some a2
    /\ el_calls a2
       = el_calls a ++ [SetSrc (audioUrl (sc_track sc)); Load;
                        SetSrc (audioUrl (sc_track sc)); Load]
    /\ generation s2 = S (S (generation s)).
Proof.
  intros Hr Ha Hsc.
  destruct (step_toggleRepeat s a sc Hr Ha Hsc)
    as (s1 & a1 & E1 & Hr1 & Ha1 & Hsc1 & Hrp1 & Hi1 & _ & _ & _ & _ & Hc1
        & Hg1).
  destruct (step_toggleRepeat s1 a1 _ Hr1 Ha1 Hsc1)
    as (s2 & a2 & E2 & _ & Ha2 & _ & Hrp2 & Hi2 & _ & Hst & Hcu & Hdu & Hc2
        & Hg2).
  exists s2, a2. cbn [run]. rewrite E1. cbn [bind]. rewrite E2. cbn [bind].
  split; [reflexivity|].
  split; [rewrite Hrp2, Hrp1; apply negb_involutive|].
  split; [congruence|]. split; [exact Hst|]. split; [exact Hcu|].
  split; [exact Hdu|]. split; [exact Ha2|].
  split; [|congruence].
  rewrite Hc2, Hc1. cbn [sc_track]. rewrite <- app_assoc. reflexivity.
Qed.

(** X11.  Without shuffle, [prev()] undoes [next()] and [next()] undoes
    [prev()] on the index. *)
Theorem next_prev_round_trip (s : State) (d1 d2 : list Q) :
  0 <= index s < length tracks ->
  isShuffle s = false ->
  (exists s1 s2,
     step tracks s (User (Next d1)) = Ok s1
     /\ step tracks s1 (User (Prev d2)) = Ok s2
     /\ index s2 = index s)
  /\ (exists s1 s2,
        step tracks s (User (Prev d1)) = Ok s1
        /\ step tracks s1 (User (Next d2)) = Ok s2
        /\ index s2 = index s).
Proof.
  intros Hi Hsh.
  destruct (mod_succ_pred _ _ Hi) as [M1 M2].
  split.
  - destruct (step_next_sequential tracks s d1 Hi Hsh) as [s1 [E1 [I1 S1]]].
    assert (Hi1 : 0 <= index s1 < length tracks)
      by (rewrite I1; apply Z.mod_pos_bound; lia).
    destruct (step_prev_sequential tracks s1 d2 Hi1 S1) as [s2 [E2 [I2 _]]].
    exists s1, s2. split; [exact E1|]. split; [exact E2|].
    rewrite I2, I1. exact M1.
  - destruct (step_prev_sequential tracks s d1 Hi Hsh) as [s1 [E1 [I1 S1]]].
    assert (Hi1 : 0 <= index s1 < length tracks)
      by (rewrite I1; apply Z.mod_pos_bound; lia).
    destruct (step_next_sequential tracks s1 d2 Hi1 S1) as [s2 [E2 [I2 _]]].
    exists s1, s2. split; [exact E1|]. split; [exact E2|].
    rewrite I2, I1. exact M2.
Qed.

(** X12.  On a playlist of one track, [next()] and [prev()] change nothing
    at all, with or without shuffle: the track is not loaded again and the
    transport is not reset. *)
Theorem single_track_navigation (s : State) (draws : list Q) :
  length tracks = 1 ->
  rendered tracks s = true ->
  step tracks s (User (Next draws)) = Ok s
  /\ step tracks s (User (Prev draws)) = Ok s.
Proof.
  intros HL Hr. destruct (rendered_scope tracks s Hr) as [sc Hsc].
  pose proof (scope_of_index _ _ _ Hsc) as (Ei & _ & _ & _ & Hrange).
  assert (H0 : index s = 0) by lia.
  assert (Hpick : pickRandomNext tracks sc draws = Ok (index s)).
  { unfold pickRandomNext. rewrite HL, Ei. reflexivity. }
  unfold step, handle, command. rewrite Hsc. unfold next, prev.
  rewrite Hpick, HL, H0.
  split; destruct (sc_isShuffle sc); cbn [bind];
    change (Z.rem (0 + 1) 1) with 0; change (Z.rem (0 - 1 + 1) 1) with 0;
    rewrite <- H0, setIndex_same; apply render_rendered; exact Hr.
Qed.

(** X13.  On a playlist of one track with repeat off, the end of the track
    starts nothing: nothing is called on the element, no load is issued and
    status, position and duration stay what they were. *)
Theorem single_track_ended
  (s : State) (a : Audio) (sc : Scope) (g : nat) (draws : list Q) :
  length tracks = 1 ->
  rendered tracks s = true ->
  audioRef s = Some a ->
  listeners s = Some sc ->
  sc_index sc = index s ->
  sc_isRepeat sc = false ->
  exists s' a',
    step tracks s (Media g (Ended draws)) = Ok s'
    /\ audioRef s' = Some a'
    /\ el_calls a' = el_calls a
    /\ generation s' = generation s
    /\ index s' = index s /\ status s' = status s
    /\ current s' = current s /\ duration s' = duration s.
Proof.
  intros HL Hr Ha Hl Hsi Hoff.
  destruct (rendered_scope tracks s Hr) as [sc0 Hsc0].
  pose proof (scope_of_index _ _ _ Hsc0) as (_ & _ & _ & _ & Hrange).
  assert (H0 : index s = 0) by lia.
  set (ab := browser_update (Ended draws) a).
  exists (with_audio ab s), ab.
  split.
  - unfold step. cbn [handle]. unfold dispatch. rewrite Ha.
    cbn [listeners with_audio]. rewrite Hl. unfold onEnded. rewrite Hoff.
    unfold next, pickRandomNext. rewrite HL, Hsi.
    cbn [index with_audio]. rewrite H0.
    assert (Eq : setIndex 0 (with_audio ab s) = with_audio ab s).
    { rewrite <- H0. exact (setIndex_same (with_audio ab s)). }
    destruct (sc_isShuffle sc);
      change (1 <=? 1) with true; change (Z.rem (0 + 1) 1) with 0;
      cbn [bind]; fold ab; rewrite Eq;
      apply render_rendered; exact Hr.
  - split; [reflexivity|]. split; [reflexivity|].
    split; [unfold generation; cbn; rewrite Ha; reflexivity|].
    repeat split; reflexivity.
Qed.

End Modes.

(** ** Play, pause and stalls *)

Section PlayPause.

Variable tracks : list Track.

(** X14.  [togglePlay] goes by the element, not by the status: called
    twice on a paused element it calls [play()] and then [pause()], the
    status stays [loading] until the element reports the pause, and then it
    is [paused] with position, duration and track as before. *)
Theorem togglePlay_twice (s : State) (a : Audio) (sc : Scope) :
  rendered tracks s = true ->
  audioRef s = Some a ->
  el_paused a = true ->
  listeners s = Some sc ->
  exists s2 a2,
    run tracks s [User TogglePlay; User TogglePlay] = Ok s2
    /\ audioRef s2 = Some a2
    /\ el_calls a2 = el_calls a ++ [Play; Pause]
    /\ el_paused a2 = true
    /\ status s2 = loading
    /\ forall g, exists s3,
         step tracks s2 (Media g Paused) = Ok s3
         /\ status s3 = paused
         /\ current s3 = current s /\ duration s3 = duration s
         /\ index s3 = index s /\ generation s3 = generation s.
Proof.
  intros Hr Ha Hp Hl.
  destruct (rendered_scope tracks s Hr) as [sc0 Hsc0].
  set (a1 := audio_play ByTogglePlay a).
  set (s1 := with_audio a1 (setStatus loading s)).
  set (a2 := audio_pause a1).
  set (s2 := with_audio a2 s1).
  assert (E1 : step tracks s (User TogglePlay) = Ok s1).
  { unfold step, handle, command. rewrite Hsc0. cbn [bind].
    unfold togglePlay. rewrite Ha, Hp. apply render_rendered. exact Hr. }
  assert (E2 : step tracks s1 (User TogglePlay) = Ok s2).
  { unfold step, handle, command.
    assert (Hsc1 : scope_of tracks s1 = Some sc0) by exact Hsc0.
    rewrite Hsc1. cbn [bind]. unfold togglePlay. cbn.
    apply render_rendered. exact Hr. }
  exists s2, a2. cbn [run]. rewrite E1. cbn [bind]. rewrite E2. cbn [bind].
  split; [reflexivity|]. split; [reflexivity|].
  split; [cbn; rewrite <- app_assoc; reflexivity|].
  split; [reflexivity|]. split; [reflexivity|].
  intro g. eexists. split.
  - unfold step. cbn [handle]. unfold dispatch. cbn. rewrite Hl. cbn [bind].
    apply render_rendered. exact Hr.
  - cbn. repeat split; try reflexivity.
    unfold generation. cbn. rewrite Ha. loads_tac.
Qed.

(** X15.  When a repeated track starts over, a rejection of that [play()]
    is swallowed: the status stays [playing] and nothing more is called on
    the element. *)
Theorem repeat_rejection_swallowed
  (s : State) (a : Audio) (sc : Scope) (g : nat) (draws : list Q) :
  rendered tracks s = true ->
  audioRef s = Some a ->
  listeners s = Some sc ->
  sc_isRepeat sc = true ->
  el_pending a = [] ->
  exists s1,
    step tracks s (Media g (Ended draws)) = Ok s1
    /\ status s1 = playing
    /\ forall fulfilled, exists s2 a2,
         step tracks s1 (PlaySettled fulfilled) = Ok s2
         /\ status s2 = playing
         /\ audioRef s2 = Some a2
         /\ el_calls a2 = el_calls a ++ [SetCurrentTime zero; Play]
         /\ el_pending a2 = [].
Proof.
  intros Hr Ha Hl Hrp Hq.
  set (a1 := audio_play ByEnded
               (audio_seeked zero (browser_update (Ended draws) a))).
  set (s1 := setStatus playing
               (with_audio a1
                  (with_audio (browser_update (Ended draws) a) s))).
  assert (Hq1 : el_pending a1 = [ByEnded]) by (cbn; rewrite Hq; reflexivity).
  exists s1. split; [|split].
  - unfold step. cbn [handle]. unfold dispatch. rewrite Ha.
    cbn [listeners with_audio]. rewrite Hl. unfold onEnded. rewrite Hrp.
    cbn [bind]. apply render_rendered. exact Hr.
  - reflexivity.
  - intro ok. exists (with_audio (drop_pending a1) s1), (drop_pending a1).
    split.
    + unfold step. cbn [handle bind]. unfold settle.
      change (audioRef s1) with (Some a1). cbv beta iota. rewrite Hq1.
      destruct ok; apply render_rendered; exact Hr.
    + split; [reflexivity|]. split; [reflexivity|]. split.
      * cbn. rewrite <- app_assoc. reflexivity.
      * cbn. rewrite Hq. reflexivity.
Qed.

(** X16.  A [waiting] event changes nothing while the element is paused;
    while it is not, the status becomes [loading] without the position or
    the loads moving, and the next [playing] event brings [playing]
    back. *)
Theorem stall_and_recover (s : State) (a : Audio) (sc : Scope) (g : nat) :
  rendered tracks s = true ->
  audioRef s = Some a ->
  listeners s = Some sc ->
  (el_paused a = true -> step tracks s (Media g Waiting) = Ok s)
  /\ (el_paused a = false ->
      exists s1,
        step tracks s (Media g Waiting) = Ok s1
        /\ status s1 = loading
        /\ current s1 = current s /\ duration s1 = duration s
        /\ generation s1 = generation s
        /\ exists s2,
             step tracks s1 (Media g Playing) = Ok s2
             /\ status s2 = playing
             /\ current s2 = current s /\ duration s2 = duration s
             /\ generation s2 = generation s).
Proof.
  intros Hr Ha Hl.
  assert (Hw : handle tracks s (Media g Waiting)
               = Ok (onWaiting a (with_audio a s))).
  { cbn [handle]. unfold dispatch. rewrite Ha. cbn [listeners with_audio].
    rewrite Hl. reflexivity. }
  split; intro Hp.
  - unfold step. rewrite Hw. unfold onWaiting. rewrite Hp. cbn [negb bind].
    rewrite (with_audio_same s a Ha). apply render_rendered. exact Hr.
  - eexists. split.
    + unfold step. rewrite Hw. unfold onWaiting. rewrite Hp. cbn [negb bind].
      apply render_rendered. exact Hr.
    + cbn. repeat split; try reflexivity.
      * unfold generation. cbn. rewrite Ha. reflexivity.
      * eexists. split.
        -- unfold step. cbn [handle]. unfold dispatch. cbn. rewrite Hl.
           cbn [bind]. apply render_rendered. exact Hr.
        -- cbn. repeat split; try reflexivity.
           unfold generation. cbn. rewrite Ha. reflexivity.
Qed.

End PlayPause.

(** ** What every run keeps, continued *)

Section Reachable.

Variable tracks : list Track.

Lemma step_keeps_audio (s s' : State) (a : Audio) (i : Input) :
  audioRef s = Some a -> step tracks s i = Ok s' ->
  exists a', audioRef s' = Some a'.
Proof.
  intros Ha H. unfold step in H.
  destruct (handle tracks s i) as [s1| |] eqn:Hh; cbn [bind] in H;
    try discriminate.
  destruct (handle_frame tracks s s1 a i Ha Hh)
    as (_ & _ & _ & _ & _ & a1 & Ha1 & _).
  destruct (render_cases tracks s1 s' a1 Ha1 H) as (_ & a' & _ & Ha' & _).
  exists a'. exact Ha'.
Qed.

Lemma step_wired (s s' : State) (i : Input) :
  mounted tracks s -> wired tracks s -> input_ok i ->
  step tracks s i = Ok s' -> wired tracks s'.
Proof.
  intros Hm Hw Hi H.
  pose proof (proj2 (step_mounted tracks s i Hm Hi) s' H) as Hm'.
  pose proof (mounted_facts tracks s' Hm')
    as (_ & a' & sc' & t' & Ha' & Hl' & Hsi' & Hsr' & Ht' & Hst' & Hsc' & _).
  destruct Hw as (a & sc & t & Ha & Hl & Ht & Hsi & Hst & Hsr & Hsrc).
  destruct Hm as [Hr _].
  destruct (step_reload_cases tracks s s' a i Hr Ha H) as [a2 [Ha2 Hcase]].
  rewrite Ha' in Ha2. injection Ha2 as <-.
  exists a', sc', t'. repeat split; try assumption.
  destruct ((index s =? index s') && Bool.eqb (isRepeat s) (isRepeat s')).
  - destruct Hcase as (_ & Hli & Hs).
    rewrite Hli, Hl in Hl'. injection Hl' as <-. congruence.
  - destruct Hcase as (_ & _ & _ & _ & _ & t2 & Ht2 & Hs2).
    rewrite Ht' in Ht2. injection Ht2 as <-. exact Hs2.
Qed.

Lemma run_invariant (P : State -> Prop) (ok : Input -> Prop) :
  (forall s i s', P s -> ok i -> step tracks s i = Ok s' -> P s') ->
  forall inputs s s',
    P s -> Forall ok inputs -> run tracks s inputs = Ok s' -> P s'.
Proof.
  intros Hstep inputs. induction inputs as [|i rest IH];
    intros s s' HP Hin H; cbn [run] in H.
  - injection H as <-. exact HP.
  - inversion Hin as [|? ? Hi Hrest]; subst.
    destruct (step tracks s i) as [s1| |] eqn:E; cbn [bind] in H;
      try discriminate.
    apply (IH s1 s' (Hstep s i s1 HP Hi E) Hrest H).
Qed.

Lemma mount_facts (s0 : State) :
  mount tracks = Ok s0 ->
  mounted tracks s0 /\ wired tracks s0
  /\ volume s0 = Fin (8 # 10) /\ duration s0 = zero.
Proof.
  intro H.
  destruct (render_cases tracks initial s0 new_audio eq_refl H)
    as (sc1 & a' & Hsc1 & Ha' & _ & _ & _ & Hv & Hc).
  change (same_loadDeps (loadDeps initial)
            (index initial, audioUrl (sc_track sc1), isRepeat initial))
    with false in Hc.
  destruct Hc as (_ & Hl & Hsrc & _ & _ & Hdu).
  assert (Hne : tracks <> []).
  { intro E0. rewrite E0 in Hsc1. discriminate. }
  destruct (mount_mounted tracks Hne) as [s1 [E [Hm _]]].
  rewrite E in H. injection H as ->.
  split; [exact Hm|]. split; [|split; assumption].
  pose proof (mounted_facts tracks s0 Hm)
    as (_ & a & sc & t & Ha & Hl' & Hsi & Hsr & Ht & Hst & _).
  rewrite Ha' in Ha. injection Ha as <-.
  rewrite Hl in Hl'. injection Hl' as <-.
  exists a', sc1, t. repeat split; try assumption. congruence.
Qed.

(** X17.  In every state the component reaches, the listeners in place are
    those of the current index, track and repeat flag, and the source of
    the element is the [audioUrl] of the current track. *)
Theorem reachable_wiring (inputs : list Input) (s : State) :
  Forall input_ok inputs ->
  (do s0 <- mount tracks; run tracks s0 inputs) = Ok s ->
  wired tracks s.
Proof.
  intros Hin H.
  destruct (mount tracks) as [s0| |] eqn:E; cbn [bind] in H;
    try discriminate.
  destruct (mount_facts s0 E) as (Hm & Hw & _).
  apply (run_invariant (fun s => mounted tracks s /\ wired tracks s)
           input_ok) with (inputs := inputs) (s := s0);
    [|split; assumption|exact Hin|exact H].
  intros s1 i s2 [Hm1 Hw1] Hi Hs. split.
  - apply (proj2 (step_mounted tracks s1 i Hm1 Hi) s2 Hs).
  - apply (step_wired s1 s2 i Hm1 Hw1 Hi Hs).
Qed.

Lemma step_volume (s s' : State) (a : Audio) (i : Input) :
  audioRef s = Some a -> step tracks s i = Ok s' ->
  volume s' = volume s
  \/ exists v, i = User (SetVolumeTo v) /\ volume s' = v.
Proof.
  intros Ha H. unfold step in H.
  destruct (handle tracks s i) as [s1| |] eqn:Hh; cbn [bind] in H;
    try discriminate.
  destruct (handle_frame tracks s s1 a i Ha Hh)
    as (_ & _ & _ & Hv & _ & a1 & Ha1 & _).
  destruct (render_cases tracks s1 s' a1 Ha1 H)
    as (_ & _ & _ & _ & _ & _ & _ & Hv' & _).
  rewrite Hv'. exact Hv.
Qed.

(** X18.  As long as the volume slider hands over numbers, the gain of
    the element is the clamped volume, inside [[0, 1]], in every state the
    component reaches. *)
Theorem reachable_gain (inputs : list Input) (s : State) :
  Forall input_ok inputs ->
  Forall volume_is_number inputs ->
  (do s0 <- mount tracks; run tracks s0 inputs) = Ok s ->
  exists a,
    audioRef s = Some a
    /\ same_value (el_volume a) (clamp (volume s) zero one) = true
    /\ le zero (el_volume a) = true /\ le (el_volume a) one = true.
Proof.
  intros Hin Hvol H.
  destruct (mount tracks) as [s0| |] eqn:E; cbn [bind] in H;
    try discriminate.
  destruct (mount_facts s0 E) as (Hm & _ & Hv0 & _).
  assert (Inv : mounted tracks s /\ volume s <> NaN).
  { apply (run_invariant (fun s => mounted tracks s /\ volume s <> NaN)
             (fun i => input_ok i /\ volume_is_number i))
      with (inputs := inputs) (s := s0).
    - intros s1 i s2 [Hm1 Hn1] [Hi Hvi] Hs. split.
      + apply (proj2 (step_mounted tracks s1 i Hm1 Hi) s2 Hs).
      + pose proof (mounted_facts tracks s1 Hm1) as (_ & a1 & _ & _ & Ha1 & _).
        destruct (step_volume s1 s2 a1 i Ha1 Hs) as [Ev|[v [-> Ev]]].
        * rewrite Ev. exact Hn1.
        * rewrite Ev. exact Hvi.
    - split; [exact Hm|]. rewrite Hv0. discriminate.
    - apply Forall_and; assumption.
    - exact H. }
  destruct Inv as [Hms Hns].
  pose proof (mounted_facts tracks s Hms)
    as (_ & a & _ & _ & Ha & _ & _ & _ & _ & _ & _ & Hg).
  exists a. split; [exact Ha|]. split; [exact Hg|].
  apply (same_value_unit _ _ Hns Hg).
Qed.

Lemma resolved_duration (d : number) (hint : option number) :
  known_or_zero (or_else d (or_else_opt hint zero)).
Proof.
  unfold known_or_zero, or_else, or_else_opt.
  destruct (truthy d) eqn:Ed; [left; exact Ed|].
  destruct hint as [h|]; [|right; reflexivity].
  unfold or_else. destruct (truthy h) eqn:Eh; [left; exact Eh|].
  right; reflexivity.
Qed.

(** X19.  In every state the component reaches, the duration is either a
    known one or exactly 0: never NaN, whatever the element reported and
    whatever the hint of the track. *)
Theorem reachable_duration (inputs : list Input) (s : State) :
  (do s0 <- mount tracks; run tracks s0 inputs) = Ok s ->
  known_or_zero (duration s).
Proof.
  intro H.
  destruct (mount tracks) as [s0| |] eqn:E; cbn [bind] in H;
    try discriminate.
  assert (H0 : (exists a, audioRef s0 = Some a)
               /\ known_or_zero (duration s0)).
  { destruct (mount_facts s0 E) as (Hm & _ & _ & Hd).
    pose proof (mounted_facts tracks s0 Hm) as (_ & a & _ & _ & Ha & _).
    split; [exists a; exact Ha|]. right. exact Hd. }
  apply (run_invariant
           (fun s => (exists a, audioRef s = Some a)
                     /\ known_or_zero (duration s))
           (fun _ => True)) with (inputs := inputs) (s := s0);
    [|exact H0|apply Forall_forall; intros; exact I|exact H].
  intros s1 i s2 [[a1 Ha1] Hk] _ Hs.
  split; [apply (step_keeps_audio s1 s2 a1 i Ha1 Hs)|].
  unfold step in Hs.
  destruct (handle tracks s1 i) as [s1'| |] eqn:Hh; cbn [bind] in Hs;
    try discriminate.
  destruct (handle_frame tracks s1 s1' a1 i Ha1 Hh)
    as (_ & _ & _ & _ & Hd & a2 & Ha2 & _).
  assert (Hk' : known_or_zero (duration s1')).
  { destruct Hd as [Hd|(g & d & sc & _ & _ & Hd)]; rewrite Hd;
      [exact Hk|apply resolved_duration]. }
  destruct (render_cases tracks s1' s2 a2 Ha2 Hs)
    as (sc1 & a' & _ & _ & _ & _ & _ & _ & Hc).
  destruct (same_loadDeps _ _).
  - destruct Hc as (_ & _ & _ & _ & _ & Hdu). rewrite Hdu. exact Hk'.
  - destruct Hc as (_ & _ & _ & _ & _ & Hdu). rewrite Hdu.
    right. reflexivity.
Qed.

End Reachable.

(** * The added properties on sample runs *)

Lemma progress_unit_witness :
  isFinite (current s_ready) = true
  /\ le zero (progress s_ready) = true /\ le (progress s_ready) one = true.
Proof.
  split; [reflexivity|].
  apply (proj2 (progress_unit s_ready)). reflexivity.
Defined.

Lemma display_after_reload_witness :
  step playlist s_ready (User (Next [])) = Ok s_ready_next
  /\ durationLabel (fun _ => EmptyString) s_ready = "3:20"%string
  /\ durationLabel (fun _ => EmptyString) s_ready_next = "3:45"%string
  /\ status s_ready_next = loading.
Proof.
  assert (E : step playlist s_ready (User (Next [])) = Ok s_ready_next)
    by (vm_compute; reflexivity).
  split; [exact E|]. split; [reflexivity|].
  destruct (display_after_reload playlist (fun _ => EmptyString)
              s_ready s_ready_next (the_audio s_ready) _
              eq_refl eq_refl E ltac:(left; discriminate))
    as (Hs & _ & Hd & _).
  split; assumption.
Defined.

Lemma toggleShuffle_silent_witness :
  rendered playlist s_ready = true
  /\ run playlist s_ready [User ToggleShuffle; User ToggleShuffle]
     = Ok s_ready.
Proof.
  split; [reflexivity|].
  apply (proj2 (toggleShuffle_silent playlist s_ready eq_refl)).
Defined.

Lemma toggleRepeat_twice_witness :
  rendered playlist s_ready = true
  /\ duration s_ready = Fin 200
  /\ exists s2,
       run playlist s_ready [User ToggleRepeat; User ToggleRepeat] = Ok s2
       /\ isRepeat s2 = isRepeat s_ready
       /\ duration s2 = zero
       /\ generation s2 = 3%nat.
Proof.
  split; [reflexivity|]. split; [reflexivity|].
  destruct (toggleRepeat_twice playlist s_ready (the_audio s_ready)
              (the_scope s_ready) eq_refl eq_refl eq_refl)
    as (s2 & a2 & E & Hr & _ & _ & _ & Hd & _ & _ & Hg).
  exists s2. repeat split; assumption.
Defined.

Lemma next_prev_round_trip_witness :
  0 <= index s_first < length playlist
  /\ isShuffle s_first = false
  /\ exists s1 s2,
       step playlist s_first (User (Next [])) = Ok s1
       /\ step playlist s1 (User (Prev [])) = Ok s2
       /\ index s2 = index s_first.
Proof.
  split; [vm_compute; split; [discriminate|reflexivity]|].
  split; [reflexivity|].
  apply (proj1 (next_prev_round_trip playlist s_first [] []
                  ltac:(vm_compute; split; [discriminate|reflexivity])
                  eq_refl)).
Defined.

Lemma single_track_navigation_witness :
  length one_track = 1
  /\ rendered one_track s_one = true
  /\ step one_track s_one (User (Next [])) = Ok s_one.
Proof.
  split; [reflexivity|]. split; [reflexivity|].
  apply (proj1 (single_track_navigation one_track s_one [] eq_refl eq_refl)).
Defined.

Lemma single_track_ended_witness :
  length one_track = 1
  /\ rendered one_track s_one = true
  /\ sc_isRepeat (the_scope s_one) = false
  /\ exists s',
       step one_track s_one (Media 0 (Ended [])) = Ok s'
       /\ generation s' = generation s_one
       /\ status s' = status s_one.
Proof.
  split; [reflexivity|]. split; [reflexivity|]. split; [reflexivity|].
  destruct (single_track_ended one_track s_one (the_audio s_one)
              (the_scope s_one) 0%nat []
              eq_refl eq_refl eq_refl eq_refl eq_refl eq_refl)
    as (s' & a' & E & _ & _ & Hg & _ & Hs & _).
  exists s'. repeat split; assumption.
Defined.

Lemma togglePlay_twice_witness :
  rendered playlist s_first = true
  /\ el_paused (the_audio s_first) = true
  /\ exists s2,
       run playlist s_first [User TogglePlay; User TogglePlay] = Ok s2
       /\ status s2 = loading
       /\ exists s3, step playlist s2 (Media 0 Paused) = Ok s3
                     /\ status s3 = paused.
Proof.
  split; [reflexivity|]. split; [reflexivity|].
  destruct (togglePlay_twice playlist s_first (the_audio s_first)
              (the_scope s_first) eq_refl eq_refl eq_refl eq_refl)
    as (s2 & a2 & E & _ & _ & _ & Hs & H).
  exists s2. split; [exact E|]. split; [exact Hs|].
  destruct (H 0%nat) as (s3 & E3 & Hs3 & _).
  exists s3. split; assumption.
Defined.

Lemma repeat_rejection_swallowed_witness :
  rendered playlist s_repeat = true
  /\ sc_isRepeat (the_scope s_repeat) = true
  /\ exists s1 s2,
       step playlist s_repeat (Media 1 (Ended [])) = Ok s1
       /\ step playlist s1 (PlaySettled false) = Ok s2
       /\ status s2 = playing.
Proof.
  split; [reflexivity|]. split; [reflexivity|].
  destruct (repeat_rejection_swallowed playlist s_repeat
              (the_audio s_repeat) (the_scope s_repeat) 1%nat []
              eq_refl eq_refl eq_refl eq_refl eq_refl)
    as (s1 & E1 & _ & H).
  destruct (H false) as (s2 & a2 & E2 & Hs & _).
  exists s1, s2. repeat split; assumption.
Defined.

Lemma stall_and_recover_witness :
  rendered playlist s_first = true
  /\ el_paused (the_audio s_first) = true
  /\ step playlist s_first (Media 0 Waiting) = Ok s_first.
Proof.
  split; [reflexivity|]. split; [reflexivity|].
  apply (proj1 (stall_and_recover playlist s_first (the_audio s_first)
                  (the_scope s_first) 0%nat eq_refl eq_refl eq_refl)).
  reflexivity.
Defined.

Lemma reachable_wiring_witness :
  (do s0 <- mount playlist; run playlist s0 [User (Next [])]) = Ok s_second
  /\ exists a, audioRef s_second = Some a
               /\ option_map audioUrl (track_at playlist 1) = Some (el_src a).
Proof.
  assert (E : (do s0 <- mount playlist; run playlist s0 [User (Next [])]) = Ok s_second)
    by (vm_compute; reflexivity).
  split; [exact E|].
  destruct (reachable_wiring playlist [User (Next [])] s_second
              ltac:(repeat constructor) E)
    as (a & sc & t & Ha & _ & Ht & _ & _ & _ & Hsrc).
  exists a. split; [exact Ha|].
  change (track_at playlist 1) with (track_at playlist (index s_second)).
  rewrite Ht, Hsrc. reflexivity.
Defined.

Lemma reachable_gain_witness :
  (do s0 <- mount playlist; run playlist s0 [User (SetVolumeTo (Fin (17 # 10)))]) = Ok s_loud
  /\ volume s_loud = Fin (17 # 10)
  /\ exists a, audioRef s_loud = Some a /\ le (el_volume a) one = true.
Proof.
  assert (E : (do s0 <- mount playlist; run playlist s0 [User (SetVolumeTo (Fin (17 # 10)))]) = Ok s_loud)
    by (vm_compute; reflexivity).
  split; [exact E|]. split; [reflexivity|].
  destruct (reachable_gain playlist [User (SetVolumeTo (Fin (17 # 10)))]
              s_loud ltac:(repeat constructor)
              ltac:(repeat constructor; discriminate) E)
    as (a & Ha & _ & _ & H1).
  exists a. split; assumption.
Defined.

Lemma reachable_duration_witness :
  (do s0 <- mount playlist; run playlist s0 [Media 0 (LoadedMetadata NaN)]) = Ok s_unknown
  /\ known_or_zero (duration s_unknown).
Proof.
  assert (E : (do s0 <- mount playlist; run playlist s0 [Media 0 (LoadedMetadata NaN)]) = Ok s_unknown)
    by (vm_compute; reflexivity).
  split; [exact E|].
  apply (reachable_duration playlist [Media 0 (LoadedMetadata NaN)]
           s_unknown E).
Defined.
